(** * udio_downloader.py: a shallow embedding and its specification

    The program is a linear pipeline: validate the song-page URL, fetch the
    page, scan it for asset links, probe the candidates, derive a file name
    from the page title, stream the audio to disk.

    Python values are modelled as follows.
    - [str] is a list of Unicode code points ([N]).
    - The character classes behind [\w], [\s] and [str.strip] are the
      interpreter's Unicode tables; they are taken as a [UnicodeDB], of which
      only the ASCII range is fixed.
    - [re] patterns are run by a small backtracking matcher over the
      fragment of the pattern language the program uses.
    - Library calls that touch the outside world (requests, os, urlparse)
      are oracles of a [World]; the calls made are recorded in a trace.
    - Exceptions and [sys.exit] are outcomes of a small monad.
    - [print] is modelled as far as it can fail: the standard output is
      open, and a print raises [UnicodeEncodeError] when the encoding of
      the standard output cannot encode a character of the text. The text
      itself is not recorded in the trace.
    - The text of an exception, [str(e)], is taken per class of exception.
    - Floating-point numbers are not computed; a division that produces
      one is modelled by the exceptions it can raise. *)

From Stdlib Require Import NArith ZArith Ascii String Lia.
From stdpp Require Import base tactics option list gmap.

#[local] Open Scope N_scope.

(** ** Text *)

Definition char : Type := N.
Definition str : Type := list char.

(** A literal of the source, as code points. *)
Definition lit (s : string) : str := N_of_ascii <$> list_ascii_of_string s.

(** [s.startswith(p)] *)
Fixpoint startswith (s p : str) : bool :=
  match p, s with
  | [], _ => true
  | c :: p', d :: s' => (c =? d) && startswith s' p'
  | _ :: _, [] => false
  end.

(** [sub in s] *)
Fixpoint contains (sub s : str) : bool :=
  startswith s sub ||
  match s with
  | [] => false
  | _ :: s' => contains sub s'
  end.

(** [s.split(sep)] for a non-empty separator: the pieces between the
    non-overlapping occurrences of [sep], found left to right. [skip] counts
    the characters of an occurrence still to be passed over and [cur] holds
    the current piece, reversed. *)
Fixpoint split_go (sep : str) (skip : nat) (cur s : str) : list str :=
  match s with
  | [] => [reverse cur]
  | c :: s' =>
      match skip with
      | S k => split_go sep k cur s'
      | O =>
          if startswith s sep
          then reverse cur :: split_go sep (length sep - 1) [] s'
          else split_go sep 0 (c :: cur) s'
      end
  end.

Definition split (sep s : str) : list str := split_go sep 0 [] s.

(** [s.replace(old, new)] where [old] and [new] are one character each. *)
Definition replace (old new : char) (s : str) : str :=
  (λ c, if c =? old then new else c) <$> s.

(** ** Character classes *)

Definition ascii_isalnum (c : char) : bool :=
  ((48 <=? c) && (c <=? 57)) || ((65 <=? c) && (c <=? 90)) ||
  ((97 <=? c) && (c <=? 122)).

Definition ascii_isspace (c : char) : bool :=
  ((9 <=? c) && (c <=? 13)) || ((28 <=? c) && (c <=? 32)).

(** [Py_UNICODE_ISALNUM] and [Py_UNICODE_ISSPACE]: the interpreter's tables.
    On ASCII they are as above; elsewhere they are left open. *)
Class UnicodeDB := {
  Py_UNICODE_ISALNUM : char → bool;
  Py_UNICODE_ISSPACE : char → bool;
  isalnum_ascii : ∀ c, c < 128 → Py_UNICODE_ISALNUM c = ascii_isalnum c;
  isspace_ascii : ∀ c, c < 128 → Py_UNICODE_ISSPACE c = ascii_isspace c;
}.

(** The tables of an interpreter that knows no letter, digit or space
    outside ASCII; used to run the examples, whose text is ASCII. *)
Definition ascii_db : UnicodeDB := {|
  Py_UNICODE_ISALNUM := ascii_isalnum;
  Py_UNICODE_ISSPACE := ascii_isspace;
  isalnum_ascii := λ _ _, eq_refl;
  isspace_ascii := λ _ _, eq_refl;
|}.

Section Text.
Context {U : UnicodeDB}.

(** [\w] of a str pattern: alphanumeric or underscore. *)
Definition is_word (c : char) : bool := Py_UNICODE_ISALNUM c || (c =? 95).

(** [\s] of a str pattern, and the whitespace of [str.strip]. *)
Definition is_space (c : char) : bool := Py_UNICODE_ISSPACE c.

Fixpoint lstrip (s : str) : str :=
  match s with
  | c :: s' => if is_space c then lstrip s' else s
  | [] => []
  end.

Definition rstrip (s : str) : str := reverse (lstrip (reverse s)).

(** [s.strip()] *)
Definition strip (s : str) : str := lstrip (rstrip s).
End Text.

(** ** Regular expressions

    The two patterns of the program are sequences of literal characters and
    one greedy repetition [[...]+] of a character class, captured or not. *)
Module Re.

Inductive node :=
  | Char (c : char)                               (* a literal character *)
  | Plus (cls : char → bool) (captured : bool).   (* [cls]+ or ([cls]+) *)

Definition pattern := list node.

(** A match: the text matched and the captured groups. *)
Definition matched : Type := str * list str.

(** The greedy repetition [[cls]+] followed by the rest of the pattern,
    [rest], as the backtracking engine runs it: take as many characters
    of the class as there are, then give them back one at a time while
    [rest] fails on what follows. The result is the text the repetition
    keeps and the match of [rest]. *)
Fixpoint greedy (cls : char → bool) (rest : str → option matched) (s : str)
    : option (str * matched) :=
  match s with
  | d :: s' =>
      if cls d
      then match greedy cls rest s' with
           | Some (run, r) => Some (d :: run, r)
           | None =>
               match rest s' with
               | Some r => Some ([d], r)
               | None => None
               end
           end
      else None
  | [] => None
  end.

(** Match [p] at the start of [s]. *)
Fixpoint match_at (p : pattern) : str → option matched :=
  match p with
  | [] => λ _, Some ([], [])
  | Char c :: p' => λ s,
      match s with
      | d :: s' =>
          if c =? d
          then match match_at p' s' with
               | Some (m, g) => Some (d :: m, g)
               | None => None
               end
          else None
      | [] => None
      end
  | Plus cls captured :: p' => λ s,
      match greedy cls (match_at p') s with
      | Some (run, (m, g)) =>
          Some (run ++ m, if captured then run :: g else g)
      | None => None
      end
  end.

(** [re.search(p, s)]: the leftmost match. *)
Fixpoint search (p : pattern) (s : str) : option matched :=
  match match_at p s with
  | Some r => Some r
  | None =>
      match s with
      | [] => None
      | _ :: s' => search p s'
      end
  end.

(** [re.findall(p, s)] for a pattern without groups that matches no empty
    text: the non-overlapping matches, left to right. [skip] counts the
    characters of the last match still to be passed over. *)
Fixpoint findall_go (p : pattern) (skip : nat) (s : str) : list str :=
  match s with
  | [] => []
  | _ :: s' =>
      match skip with
      | S k => findall_go p k s'
      | O =>
          match match_at p s with
          | Some (m, _) => m :: findall_go p (length m - 1) s'
          | None => findall_go p 0 s'
          end
      end
  end.

Definition findall (p : pattern) (s : str) : list str := findall_go p 0 s.

(** [re.sub(p, '', s)] where [p] is one character class: the characters
    of the class are dropped. *)
Definition sub_class (cls : char → bool) (s : str) : str :=
  List.filter (λ c, negb (cls c)) s.

Definition literal (s : string) : pattern := Char <$> lit s.

End Re.

(** ** Exceptions, exits and effects *)

(** Exceptions of class [Exception]. [RequestException] stands for
    [requests.RequestException] and its subclasses, [OSError] for the
    built-in class and its subclasses. *)
Inductive exn :=
| RequestException
| ValueError
| IndexError
| ZeroDivisionError
| OverflowError
| UnicodeEncodeError
| OSError.

(** The exceptions the interpreter raises on its own account in this
    program. Their texts are ASCII: [division by zero], [integer division
    result too large for a float], [list index out of range], and for
    [UnicodeEncodeError] the name of the codec, the character as an escape,
    its position and the reason. *)
Definition builtin_text (e : exn) : bool :=
  match e with
  | IndexError | ZeroDivisionError | OverflowError | UnicodeEncodeError => true
  | RequestException | ValueError | OSError => false
  end.

(** How a computation ends: with a value, with an exception of class
    [Exception], or with the [SystemExit] that [sys.exit] raises (which is
    not of class [Exception]). *)
Inductive outcome (A : Type) :=
| Return (a : A)
| Raise (e : exn)
| SysExit (code : Z).
Arguments Return {A} a.
Arguments Raise {A} e.
Arguments SysExit {A} code.

Definition bytes : Type := list N.

(** What the program does to the outside world. A request is recorded when
    it is issued, a change to the file system when it has succeeded. *)
Inductive event :=
| EGet (url : str) (timeout : Z)         (* requests.get(url, timeout=) *)
| EHead (url : str) (timeout : Z)        (* requests.head(url, timeout=) *)
| EGetStream (url : str) (timeout : Z)   (* requests.get(url, stream=True, timeout=) *)
| EMakedirs (path : str)                 (* os.makedirs(path) *)
| EOpen (path : str)                     (* open(path, 'wb'): created or truncated *)
| EWrite (path : str) (chunk : bytes).   (* f.write(chunk) *)

Definition trace : Type := list event.

Definition M (A : Type) : Type := trace → outcome A * trace.

#[local] Instance M_ret : MRet M := λ A a tr, (Return a, tr).

#[local] Instance M_bind : MBind M := λ A B f m tr,
  match m tr with
  | (Return a, tr') => f a tr'
  | (Raise e, tr') => (Raise e, tr')
  | (SysExit c, tr') => (SysExit c, tr')
  end.

Definition raise {A} (e : exn) : M A := λ tr, (Raise e, tr).

(** [sys.exit(code)] *)
Definition sys_exit {A} (code : Z) : M A := λ tr, (SysExit code, tr).

Definition emit (e : event) : M unit := λ tr, (Return (), tr ++ [e]).

(** The result of a library call that either raises or returns. *)
Definition call {A} (r : exn + A) : M A :=
  match r with
  | inl e => raise e
  | inr a => mret a
  end.

(** [try: body  except Exception as e: handler]. An exception the handler
    raises is not caught. *)
Definition try_except_Exception {A} (body : M A) (handler : exn → M A) : M A :=
  λ tr,
    match body tr with
    | (Raise e, tr') => handler e tr'
    | r => r
    end.

(** [try: body  except: handler]; a bare [except] also catches
    [SystemExit]. *)
Definition try_except {A} (body : M A) (handler : M A) : M A :=
  λ tr,
    match body tr with
    | (Return a, tr') => (Return a, tr')
    | (_, tr') => handler tr'
    end.

(** [l[i]] *)
Definition index {A} (l : list A) (i : nat) : M A :=
  match l !! i with
  | Some a => mret a
  | None => raise IndexError
  end.

(** Truth value of a variable that holds [None] or a string. *)
Definition truthy (v : option str) : bool :=
  match v with
  | Some (_ :: _) => true
  | _ => false
  end.

(** [a / b] on integers gives a float, which the model does not compute.
    The quotient, rounded to the nearest float, is beyond the largest
    float, 2^1024 - 2^971, from 2^1024 - 2^970 on. *)
Definition float_overflows (a b : Z) : bool :=
  ((2 ^ 1024 - 2 ^ 970) * Z.abs b <=? Z.abs a)%Z.

(** [a / b], as far as it can fail: it raises [ZeroDivisionError] when
    [b] is zero and [OverflowError] when the quotient is too large for a
    float. *)
Definition true_divide (a b : Z) : M unit :=
  if (b =? 0)%Z then raise ZeroDivisionError
  else if float_overflows a b then raise OverflowError
  else mret ().

(** ** The outside world *)

(** [requests.Response], as far as the program reads it. *)
Record Response := {
  status_code : Z;
  text : str;
}.

(** A streamed response: the [Content-Length] header if any, the chunks
    [iter_content(chunk_size=8192)] yields, and the exception that ends the
    iteration early if any. *)
Record StreamResponse := {
  stream_status_code : Z;
  content_length : option str;
  iter_content : list bytes;
  iter_error : option exn;
}.

(** [urllib.parse.ParseResult] *)
Record ParseResult := {
  scheme : str;
  netloc : str;
  path : str;
  params : str;
  query : str;
  fragment : str;
}.

(** The library functions the program calls, as oracles, and the standard
    output. [stdout_encodes] tells which characters beyond ASCII the
    encoding of [sys.stdout] can encode, [str_exn] is [str(e)]. *)
Class World := {
  urlparse : str → exn + ParseResult;             (* urllib.parse.urlparse *)
  requests_get : str → exn + Response;            (* requests.get *)
  requests_head : str → exn + Z;                  (* requests.head(...).status_code *)
  requests_get_stream : str → exn + StreamResponse;
  int : str → exn + Z;                            (* the built-in int() *)
  os_path_exists : str → bool;
  os_makedirs : str → option exn;
  os_path_abspath : str → exn + str;              (* reads the working directory *)
  open_wb : str → option exn;
  file_write : str → bytes → option exn;
  stdout_encodes : char → bool;
  str_exn : exn → str;
  str_exn_ascii :
    ∀ e, builtin_text e = true → forallb (λ c, c <? 128) (str_exn e) = true;
}.

(** [response.raise_for_status()] *)
Definition raise_for_status (status : Z) : M unit :=
  if ((400 <=? status) && (status <? 600))%Z
  then raise RequestException
  else mret ().

(** [os.path.join(a, b)] on POSIX *)
Definition os_path_join (a b : str) : str :=
  if startswith b [47] then b
  else if bool_decide (a = []) || startswith (reverse a) [47] then a ++ b
  else a ++ [47] ++ b.

(** ** Printing *)

Section Printing.
Context {W : World}.

(** The standard output can encode the character. The encoding is taken
    to cover ASCII. *)
Definition encodable (c : char) : bool := (c <? 128) || stdout_encodes c.

Definition printable (s : str) : bool := forallb encodable s.

(** [print(s)]: it raises [UnicodeEncodeError] when the standard output
    cannot encode a character of [s]. The text written is not recorded. *)
Definition print (s : str) : M unit :=
  if printable s then mret () else raise UnicodeEncodeError.

End Printing.

(** The marks of lines 72, 75, 77 and 189: U+2713 and U+2717. *)
Definition check_mark : char := 10003.
Definition cross_mark : char := 10007.

(** The docstring of the module, which [main] prints as [__doc__]. *)
Definition doc : str :=
  [10] ++ lit "Standalone Udio Song Downloader" ++
  [10] ++ lit "Downloads songs from Udio.com without requiring a web interface." ++
  [10] ++
  [10] ++ lit "Usage:" ++
  [10] ++ lit "    python udio_downloader.py <udio_song_url> [output_directory]" ++
  [10] ++
  [10] ++ lit "Example:" ++
  [10] ++ lit "    python udio_downloader.py https://www.udio.com/songs/abc123" ++
  [10] ++ lit "    python udio_downloader.py https://www.udio.com/songs/abc123 ./downloads" ++
  [10].

(** ** The program

    A formatted number in a printed text (a count, a status code, a size
    or a percentage) is a run of ASCII characters; the texts below leave
    it out. *)

(** Line 48: the literal prefix [https://storage.googleapis.com/], one or
    more characters other than the double quote (code point 34), and the
    literal suffix [.mp3]. *)
Definition mp3_pattern : Re.pattern :=
  Re.literal "https://storage.googleapis.com/" ++
  [Re.Plus (λ c, negb (c =? 34)) false] ++ Re.literal ".mp3".

(** Line 86: [<title>([^<]+)</title>]; code point 60 is [<]. *)
Definition title_pattern : Re.pattern :=
  Re.literal "<title>" ++ [Re.Plus (λ c, negb (c =? 60)) true] ++
  Re.literal "</title>".

(** The loop of lines 55-60: [seen] is the set, [unique_urls] the list. *)
Fixpoint dedup_loop (all_mp3_urls : list str) (seen : gset str)
    (unique_urls : list str) : list str :=
  match all_mp3_urls with
  | [] => unique_urls
  | url :: rest =>
      if decide (url ∉ seen)
      then dedup_loop rest ({[url]} ∪ seen) (unique_urls ++ [url])
      else dedup_loop rest seen unique_urls
  end.

Definition dedup (all_mp3_urls : list str) : list str :=
  dedup_loop all_mp3_urls ∅ [].

Section Program.
Context {U : UnicodeDB} {W : World}.

(** Lines 21-27. *)
Definition is_valid_udio_url (url : str) : M bool :=
  try_except
    (parsed ← call (urlparse url);
     mret (bool_decide (netloc parsed = lit "www.udio.com") &&
           contains (lit "/songs/") (path parsed)))
    (mret false).

(** The handler of lines 76-78, up to its [continue]. *)
Definition probe_failed (e : exn) : M unit :=
  print ([cross_mark] ++ lit " Failed (" ++ str_exn e ++ lit ")").

(** The loop of lines 66-78. [audio_url] is the variable of that name
    when the loop reaches [unique_urls]; the result is its value when the
    loop is left, at its end or by [break].

    The [try] block is taken in two steps, each under the handler of lines
    76-78. The first step is lines 68-70 and 74-75. The second is lines
    71-73, for a status of 200: line 71 assigns before line 72 prints, so
    when that print raises, the handler runs and the loop goes on with the
    variable set. *)
Fixpoint probe_loop (audio_url : option str) (unique_urls : list str)
    : M (option str) :=
  match unique_urls with
  | [] => mret audio_url
  | url :: rest =>
      try_except_Exception
        (print (lit "      Testing URL /...");;
         emit (EHead url 5);;
         head_status ← call (requests_head url);
         if (head_status =? 200)%Z then mret true
         else print ([cross_mark] ++ lit " Status ");; mret false)
        (λ e, probe_failed e;; mret false) ≫= λ working : bool,
      if working
      then try_except_Exception
             (print ([check_mark] ++ lit " Working");; mret (Some url))
             (λ e, probe_failed e;; probe_loop (Some url) rest)
      else probe_loop audio_url rest
  end.

(** [[^\w\s-]] *)
Definition unsafe_char (c : char) : bool :=
  negb (is_word c || is_space c || (c =? 45)).

(** Line 94: [re.sub(r'[^\w\s-]', '', t).strip().replace(' ', '_')] *)
Definition sanitize (song_title : str) : str :=
  replace 32 95 (strip (Re.sub_class unsafe_char song_title)).

(** Lines 86-94. *)
Definition song_title_of (response_text : str) : M str :=
  let title_match := Re.search title_pattern response_text in
  let song_title := lit "udio_song" in
  match title_match with
  | Some (_, groups) =>
      title_text ← index groups 0;
      song_title ←
        (if contains (lit " - ") title_text
         then part ← index (split (lit " - ") title_text) 1;
              name ← index (split (lit " | ") part) 0;
              mret (strip name)
         else mret song_title);
      mret (sanitize song_title)
  | None => mret song_title
  end.

(** Lines 30-104. The result is the pair the function returns; each
    component is [None] or a string. The print of line 40 comes before the
    [try]. *)
Definition extract_audio_url (udio_url : str) : M (option str * option str) :=
  print (lit "[1/3] Fetching Udio page: " ++ udio_url);;
  try_except_Exception
    (emit (EGet udio_url 10);;
     response ← call (requests_get udio_url);
     raise_for_status (status_code response);;
     let all_mp3_urls := Re.findall mp3_pattern (text response) in
     if bool_decide (all_mp3_urls = [])
     then print (lit "ERROR: Could not find audio file on this page");;
          mret (None, None)
     else
     let unique_urls := dedup all_mp3_urls in
     print (lit "      Found  unique MP3 URL(s)");;
     audio_url ← probe_loop None unique_urls;
     audio_url ←
       (if negb (truthy audio_url)
        then print (lit "      No working URL found, using first URL as fallback");;
             first ← index unique_urls 0; mret (Some first)
        else mret audio_url);
     song_title ← song_title_of (text response);
     print (lit "      Song title: " ++ song_title);;
     mret (audio_url, Some song_title))
    (λ e,
       match e with
       | RequestException =>
           print (lit "ERROR: Failed to fetch URL: " ++ str_exn e);;
           mret (None, None)
       | _ =>
           print (lit "ERROR: An error occurred: " ++ str_exn e);;
           mret (None, None)
       end).

(** The loop of lines 133-138. [progress] divides by [int(file_size)]. *)
Fixpoint write_chunks (output_path : str) (file_size : option str)
    (downloaded : nat) (chunks : list bytes) : M nat :=
  match chunks with
  | [] => mret downloaded
  | chunk :: rest =>
      call (from_option inl (inr ()) (file_write output_path chunk));;
      emit (EWrite output_path chunk);;
      let downloaded := (downloaded + length chunk)%nat in
      (if truthy file_size
       then total ← call (int (default [] file_size));
            true_divide (Z.of_nat downloaded) total;;
            print ([13] ++ lit "      Progress: %")
       else mret ());;
      write_chunks output_path file_size downloaded rest
  end.

(** Lines 107-148. The print of line 117 comes before the [try]. *)
Definition download_audio (audio_url output_path : str) : M bool :=
  print (lit "[2/3] Downloading audio file...");;
  try_except_Exception
    (emit (EGetStream audio_url 30);;
     audio_response ← call (requests_get_stream audio_url);
     raise_for_status (stream_status_code audio_response);;
     let file_size := content_length audio_response in
     (if truthy file_size
      then size ← call (int (default [] file_size));
           true_divide size (1024 * 1024);;
           print (lit "      File size:  MB")
      else mret ());;
     call (from_option inl (inr ()) (open_wb output_path));;
     emit (EOpen output_path);;
     _ ← write_chunks output_path file_size 0 (iter_content audio_response);
     call (from_option inl (inr ()) (iter_error audio_response));;
     (if truthy file_size then print [] else mret ());;
     print (lit "[3/3] Successfully saved to: " ++ output_path);;
     mret true)
    (λ e, print (lit "ERROR: Download failed: " ++ str_exn e);; mret false).

(** Lines 151-190; [argv] is [sys.argv]. *)
Definition main (argv : list str) : M unit :=
  if (length argv <? 2)%nat
  then print doc;;
       print ([10] ++ lit "ERROR: Please provide a Udio song URL");;
       sys_exit 1
  else
  argv1 ← index argv 1;
  let udio_url := strip argv1 in
  output_dir ←
    (if (2 <? length argv)%nat then index argv 2 else mret [46]);
  valid ← is_valid_udio_url udio_url;
  if negb valid
  then print (lit "ERROR: Invalid Udio song URL. Must be from www.udio.com with /songs/ path");;
       print (lit "Example: https://www.udio.com/songs/abc123");;
       sys_exit 1
  else
  (if negb (os_path_exists output_dir)
   then call (from_option inl (inr ()) (os_makedirs output_dir));;
        emit (EMakedirs output_dir);;
        print (lit "Created output directory: " ++ output_dir)
   else mret ());;
  extracted ← extract_audio_url udio_url;
  let audio_url := extracted.1 in
  let song_title := extracted.2 in
  if negb (truthy audio_url)
  then print ([10] ++ lit "Failed to extract audio URL");; sys_exit 1
  else
  let output_path :=
    os_path_join output_dir (default (lit "None") song_title ++ lit ".mp3") in
  success ← download_audio (default [] audio_url) output_path;
  if negb success
  then print ([10] ++ lit "Download failed");; sys_exit 1
  else
  print ([10; check_mark] ++ lit " Download complete!");;
  absolute ← call (os_path_abspath output_path);
  print (lit "  File: " ++ absolute).

End Program.

(** ** Vocabulary of the specification *)

Section Vocabulary.
Context {U : UnicodeDB} {W : World}.

(** The page request for [url] is answered with [response], and
    [raise_for_status] lets it pass. *)
Definition fetched (url : str) (response : Response) : Prop :=
  requests_get url = inr response ∧
  ((400 <=? status_code response) && (status_code response <? 600))%Z = false.

(** The probe of [url] succeeds: the request returns and its status is
    200. *)
Definition probe_ok (url : str) : bool :=
  match requests_head url with
  | inr status => (status =? 200)%Z
  | inl _ => false
  end.

(** The probes issued for the candidates [urls], in order. *)
Definition probes (urls : list str) : trace := (λ url, EHead url 5) <$> urls.

(** The standard output can encode what the probe loop prints: the two
    marks, and the text of whatever exception a probe raises. *)
Definition probe_prints : Prop :=
  encodable check_mark = true ∧ encodable cross_mark = true ∧
  ∀ candidate e, requests_head candidate = inl e → printable (str_exn e) = true.

(** How a handler ends that prints the text of the exception [e] it has
    caught and then returns [a]. *)
Definition handled {A} (e : exn) (a : A) (tr : trace) : outcome A * trace :=
  if printable (str_exn e) then (Return a, tr) else (Raise UnicodeEncodeError, tr).

(** [i] is the index of the first occurrence of [x] in [l]. *)
Definition first_occurrence (l : list str) (x : str) (i : nat) : Prop :=
  l !! i = Some x ∧ ∀ k, (k < i)%nat → l !! k ≠ Some x.

(** No whitespace at the front. *)
Definition no_lead (s : str) : Prop :=
  match s with
  | c :: _ => is_space c = false
  | [] => True
  end.

(** Characters the sanitizer keeps. *)
Definition kept (c : char) : Prop := unsafe_char c = false.

(** What a character of a sanitized title can be: a word character, a
    hyphen, or whitespace other than the space. *)
Definition title_char (c : char) : Prop :=
  is_word c = true ∨ c = 45 ∨ (is_space c = true ∧ c ≠ 32).

(** The title element of a page, if it has one: the text of group 1. *)
Definition title_element (response_text : str) : option str :=
  match Re.search title_pattern response_text with
  | Some (_, title_text :: _) => Some title_text
  | _ => None
  end.

(** The standard output can encode the title text of the page, if it has
    one. *)
Definition title_prints (response : Response) : Prop :=
  ∀ title_text,
    title_element (text response) = Some title_text → printable title_text = true.

End Vocabulary.

(** The nodes of a pattern that capture a group. *)
Definition captures (n : Re.node) : bool :=
  match n with
  | Re.Plus _ captured => captured
  | Re.Char _ => false
  end.

(** How the process ends when [main] is run as the script's entry point. *)
Inductive termination :=
| ExitCode (code : Z)         (* main returned (code 0) or called sys.exit *)
| Traceback (e : exn).        (* an exception reached the top level *)

Definition run_main {U : UnicodeDB} {W : World} (argv : list str)
    : termination * trace :=
  match main argv [] with
  | (Return _, tr) => (ExitCode 0, tr)
  | (SysExit c, tr) => (ExitCode c, tr)
  | (Raise e, tr) => (Traceback e, tr)
  end.

(** Files the trace creates. *)
Definition files_created (tr : trace) : list str :=
  omap (λ e, match e with EOpen p => Some p | _ => None end) tr.

(** ** A model of [urllib.parse.urlparse]

    The program only reads [netloc] and [path]. The model follows
    [urlsplit] and [urlparse] of CPython 3.12 on ASCII text; it leaves out
    the validation of bracketed hosts and the NFKC check of non-ASCII
    network locations, both of which can only turn a parse into a
    [ValueError]. The general theorems do not depend on it: they hold for
    every [urlparse] of a [World]. *)
Module UrllibParse.

(** [s.partition(c)]: the text before and after the first [c]. *)
Fixpoint partition (c : char) (s : str) : option (str * str) :=
  match s with
  | [] => None
  | d :: s' =>
      if d =? c then Some ([], s')
      else match partition c s' with
           | Some (before, after) => Some (d :: before, after)
           | None => None
           end
  end.

(** [s.rpartition(c)]: the text before and after the last [c]. *)
Definition rpartition (c : char) (s : str) : option (str * str) :=
  match partition c (reverse s) with
  | Some (after, before) => Some (reverse before, reverse after)
  | None => None
  end.

(** The longest prefix without a character of [stop], and the rest. *)
Fixpoint span_until (stop : char → bool) (s : str) : str * str :=
  match s with
  | [] => ([], [])
  | d :: s' =>
      if stop d then ([], s)
      else let '(a, b) := span_until stop s' in (d :: a, b)
  end.

Definition ascii_isalpha (c : char) : bool :=
  ((65 <=? c) && (c <=? 90)) || ((97 <=? c) && (c <=? 122)).

Definition ascii_lower (c : char) : char :=
  if (65 <=? c) && (c <=? 90) then c + 32 else c.

(** [scheme_chars]: letters, digits, [+], [-] and [.] *)
Definition scheme_char (c : char) : bool :=
  ascii_isalnum c || (c =? 43) || (c =? 45) || (c =? 46).

(** [uses_params]; the first entry is the empty scheme. *)
Definition uses_params : list str :=
  [] :: (lit <$> ["ftp"; "hdl"; "prospero"; "http"; "imap"; "https"; "shttp";
                  "rtsp"; "rtspu"; "sip"; "sips"; "mms"; "sftp"; "tel"]%string).

(** [_splitparams] *)
Definition splitparams (url : str) : str * str :=
  match rpartition 47 url with
  | Some (dir, last) =>
      match partition 59 last with
      | Some (seg, par) => (dir ++ [47] ++ seg, par)
      | None => (url, [])
      end
  | None =>
      match partition 59 url with
      | Some (seg, par) => (seg, par)
      | None => (url, [])
      end
  end.

Definition urlparse (url : str) : exn + ParseResult :=
  (* leading C0 control characters and spaces are stripped; tab, line
     feed and carriage return are removed *)
  let url := (fix lstrip0 (s : str) : str :=
                match s with
                | c :: s' => if c <=? 32 then lstrip0 s' else s
                | [] => []
                end) url in
  let url := List.filter (λ c, negb ((c =? 9) || (c =? 10) || (c =? 13))) url in
  let '(scheme, url) :=
    match partition 58 url with
    | Some (c :: pre, rest) =>
        if ascii_isalpha c && forallb scheme_char (c :: pre)
        then (ascii_lower <$> (c :: pre), rest)
        else ([], url)
    | _ => ([], url)
    end in
  let '(netloc, url) :=
    if startswith url [47; 47]
    then span_until (λ c, (c =? 47) || (c =? 63) || (c =? 35)) (drop 2 url)
    else ([], url) in
  if xorb (bool_decide (91 ∈ netloc)) (bool_decide (93 ∈ netloc))
  then inl ValueError
  else
    let '(url, fragment) := default (url, []) (partition 35 url) in
    let '(url, query) := default (url, []) (partition 63 url) in
    let '(url, params) :=
      if bool_decide (scheme ∈ uses_params) && bool_decide (59 ∈ url)
      then splitparams url
      else (url, []) in
    inr {| scheme := scheme; netloc := netloc; path := url;
           params := params; query := query; fragment := fragment |}.

(** The [hostname] property of a parse result: the network location
    without user information and port, in lower case ([None] if empty). *)
Definition hostname (netloc : str) : option str :=
  let hostinfo :=
    match rpartition 64 netloc with
    | Some (_, after) => after
    | None => netloc
    end in
  let host :=
    match partition 91 hostinfo with
    | Some (_, bracketed) => (span_until (λ c, c =? 93) bracketed).1
    | None => (span_until (λ c, c =? 58) hostinfo).1
    end in
  if bool_decide (host = []) then None
  else
    let '(name, zone) := span_until (λ c, c =? 37) host in
    Some ((ascii_lower <$> name) ++ zone).

End UrllibParse.

(** ** Sample worlds, to run the program on concrete inputs *)

(** [int] on a string of ASCII digits. *)
Definition int_of_digits (s : str) : exn + Z :=
  if bool_decide (s = []) || negb (forallb (λ c, (48 <=? c) && (c <=? 57)) s)
  then inl ValueError
  else inr (foldl (λ n c, 10 * n + Z.of_N (c - 48))%Z 0%Z s).

(** Standard outputs, beyond ASCII: UTF-8 encodes every character but
    the surrogates (U+D800 to U+DFFF), Latin-1 the characters below 256. *)
Definition utf8_stdout (c : char) : bool := negb ((55296 <=? c) && (c <=? 57343)).
Definition latin1_stdout (c : char) : bool := c <? 256.

(** A world in which every page request is answered with [page], the probe
    of a url with [head url], every download with [stream]; the directories
    [dirs] exist, [os.makedirs] fails on the empty path and succeeds
    elsewhere, and files can be written; the working directory is
    [/home/user]; the standard output encodes the characters of [stdout]
    beyond ASCII, and the exceptions of the libraries have the text
    [error_text]. *)
Definition sample_world_on (stdout : char → bool) (error_text : str)
    (page : exn + Response) (head : str → exn + Z)
    (stream : exn + StreamResponse) (dirs : list str) : World := {|
  urlparse := UrllibParse.urlparse;
  requests_get := λ _, page;
  requests_head := head;
  requests_get_stream := λ _, stream;
  int := int_of_digits;
  os_path_exists := λ p, bool_decide (p ∈ dirs);
  os_makedirs := λ p, if bool_decide (p = []) then Some OSError else None;
  os_path_abspath := λ p, inr (lit "/home/user/" ++ p);
  open_wb := λ _, None;
  file_write := λ _ _, None;
  stdout_encodes := stdout;
  str_exn := λ e, if builtin_text e then lit "error" else error_text;
  str_exn_ascii := ltac:(by intros [] H);
|}.

(** The same on a UTF-8 standard output, with ASCII texts. *)
Definition sample_world (page : exn + Response) (head : str → exn + Z)
    (stream : exn + StreamResponse) (dirs : list str) : World :=
  sample_world_on utf8_stdout (lit "error") page head stream dirs.

Definition ok_page (body : str) : exn + Response :=
  inr {| status_code := 200; text := body |}.

Definition ok_stream (chunks : list bytes) : exn + StreamResponse :=
  inr {| stream_status_code := 200; content_length := None;
         iter_content := chunks; iter_error := None |}.

(** A double quote, which ends an asset link in the page markup. *)
Definition dq : str := [34].

(** Sample pages. *)

Definition asset (name : string) : str :=
  lit "https://storage.googleapis.com/" ++ lit name.

(** A page: a title element and the asset links, each in double quotes. *)
Definition page (title : str) (links : list str) : str :=
  lit "<html><head><title>" ++ title ++ lit "</title></head><body>" ++
  concat ((λ link, lit "<a href=" ++ dq ++ link ++ dq ++ lit ">") <$> links) ++
  lit "</body></html>".

Definition song_url : str := lit "https://www.udio.com/songs/abc123".

(** The first link is dead, the second one works. *)
Definition second_works (url : str) : exn + Z :=
  if bool_decide (url = asset "b.mp3") then inr 200%Z
  else if bool_decide (url = asset "a.mp3") then inr 404%Z
  else inl RequestException.


Definition all_work (url : str) : exn + Z := inr 200%Z.

Definition great_hit_page : str :=
  page (lit "My Song - Great Hit | Udio")
    [asset "a.mp3"; asset "b.mp3"; asset "a.mp3"].

Definition great_hit_response : Response :=
  {| status_code := 200; text := great_hit_page |}.

Definition great_hit_world (head : str → exn + Z) : World :=
  sample_world (inr great_hit_response) head (ok_stream [[73; 68; 51]]) [[46]].

(** A title without the separator. *)
Definition plain_title_response : Response :=
  {| status_code := 200; text := page (lit "Great Hit") [asset "a.mp3"] |}.

Definition plain_title_world : World :=
  sample_world (inr plain_title_response) all_work (ok_stream []) [[46]].

(** A title whose song name is made of punctuation only. *)
Definition punctuation_response : Response :=
  {| status_code := 200;
     text := page (lit "Artist - !!! | Udio") [asset "a.mp3"] |}.

Definition punctuation_world : World :=
  sample_world (inr punctuation_response) all_work (ok_stream []) [[46]].

(** A title whose song name holds a tab (code point 9). *)
Definition tab_response : Response :=
  {| status_code := 200;
     text := page (lit "Artist - one" ++ [9] ++ lit "two | Udio") [asset "a.mp3"] |}.

Definition tab_world : World :=
  sample_world (inr tab_response) all_work (ok_stream []) [[46]].



(** The right-hand side of the validator's specification, read with the
    host of the URL: the URL parses, its host is [www.udio.com] and its
    path contains [/songs/]. *)
Definition host_and_path_match (url : str) : Prop :=
  ∃ parsed, UrllibParse.urlparse url = inr parsed ∧
            UrllibParse.hostname (netloc parsed) = Some (lit "www.udio.com") ∧
            contains (lit "/songs/") (path parsed) = true.

(** A page without a title element. *)
Definition no_title_response : Response :=
  {| status_code := 200;
     text := lit "<html><body><a href=" ++ dq ++ asset "a.mp3" ++ dq ++
             lit "></body></html>" |}.

Definition no_title_world : World :=
  sample_world (inr no_title_response) all_work (ok_stream []) [[46]].

(** A page with three asset links. *)
Definition three_links_response : Response :=
  {| status_code := 200;
     text := page (lit "My Song - Great Hit | Udio")
               [asset "a.mp3"; asset "b.mp3"; asset "c.mp3"] |}.

(** The first link answers 204, the second 200. *)
Definition first_no_content (url : str) : exn + Z :=
  if bool_decide (url = asset "a.mp3") then inr 204%Z else inr 200%Z.


Definition three_links_world (head : str → exn + Z) : World :=
  sample_world (inr three_links_response) head (ok_stream []) [[46]].

(** A world whose standard output is Latin-1, as a console with a legacy
    code page is: it cannot encode the marks of lines 72, 75 and 77. *)
Definition latin1_world (page : Response) (head : str → exn + Z) : World :=
  sample_world_on latin1_stdout (lit "error") (inr page) head
    (ok_stream [[73; 68; 51]]) [[46]].

(** ** File contents and outcomes of a download *)

(** The writes of [chunks] to [path], in order. *)
Definition writes (path : str) (chunks : list bytes) : trace :=
  EWrite path <$> chunks.

(** What the file [path] holds after the trace [tr]: [open(path, 'wb')]
    empties it and each write appends to it. *)
Definition content_step (path : str) (content : bytes) (e : event) : bytes :=
  match e with
  | EOpen p => if bool_decide (p = path) then [] else content
  | EWrite p chunk => if bool_decide (p = path) then content ++ chunk else content
  | _ => content
  end.

Definition file_content (path : str) (tr : trace) : bytes :=
  foldl (content_step path) [] tr.

(** The computations on the [Content-Length] header at lines 125-128 and
    136-137 go through for a body of [size] bytes: the header is absent or
    empty, or [int] reads it as a number other than 0, and neither the
    division of line 127 nor that of line 137 overflows. *)
Definition content_length_ok {W : World} (file_size : option str) (size : nat) : Prop :=
  truthy file_size = false ∨
  ∃ total, int (default [] file_size) = inr total ∧ total ≠ 0%Z ∧
           float_overflows total (1024 * 1024) = false ∧
           float_overflows (Z.of_nat size) total = false.

(** The download is refused with the exception [e] before the destination
    is opened: the request fails, the status is an error, the
    [Content-Length] header cannot be read as a number or is too large a
    number for line 127, or the destination cannot be opened. *)
Definition refused {W : World} (audio_url output_path : str) (e : exn) : Prop :=
  match requests_get_stream audio_url with
  | inl e' => e = e'
  | inr audio_response =>
      if ((400 <=? stream_status_code audio_response) &&
          (stream_status_code audio_response <? 600))%Z
      then e = RequestException
      else
        let file_size := content_length audio_response in
        match (if truthy file_size then int (default [] file_size) else inr 0%Z) with
        | inl e' => e = e'
        | inr size =>
            if float_overflows size (1024 * 1024)
            then e = OverflowError
            else open_wb output_path = Some e
        end
  end.

(** The stream for [audio_url] is served as [audio_response] and the
    destination is ready: the status is no error, the destination can be
    opened and every chunk can be written. *)
Definition streaming {W : World} (audio_url output_path : str)
    (audio_response : StreamResponse) : Prop :=
  requests_get_stream audio_url = inr audio_response ∧
  ((400 <=? stream_status_code audio_response) &&
   (stream_status_code audio_response <? 600))%Z = false ∧
  open_wb output_path = None ∧
  Forall (λ chunk, file_write output_path chunk = None)
    (iter_content audio_response).

(** Answers of the audio server: a stream that breaks after its first
    chunk, a stream announced with a length of zero, and an error status. *)
Definition broken_stream : StreamResponse :=
  {| stream_status_code := 200; content_length := Some (lit "5");
     iter_content := [[73; 68; 51]]; iter_error := Some RequestException |}.

Definition zero_length_stream : StreamResponse :=
  {| stream_status_code := 200; content_length := Some (lit "0");
     iter_content := [[73; 68; 51]; [4]]; iter_error := None |}.

Definition not_found_stream : StreamResponse :=
  {| stream_status_code := 404; content_length := None;
     iter_content := []; iter_error := None |}.

Definition download_world (stream : StreamResponse) : World :=
  sample_world (inr great_hit_response) all_work (inr stream) [[46]].

(** The song page cannot be reached. *)
Definition unreachable_world : World :=
  sample_world (inl RequestException) all_work (ok_stream []) [[46]].

Definition sample_argv : list str :=
  [lit "udio_downloader.py"; song_url; lit "out"].

(** * Facts *)

(** ** Stripping and sanitizing *)

Section TextFacts.
Context {U : UnicodeDB}.
Implicit Types (s t : str) (c : char).

Lemma is_space_32 : is_space 32 = true.
Proof. unfold is_space. by rewrite isspace_ascii. Qed.

Lemma is_space_95 : is_space 95 = false.
Proof. unfold is_space. by rewrite isspace_ascii. Qed.

Lemma lstrip_no_lead s : no_lead (lstrip s).
Proof.
  induction s as [|c s IH]; simpl; [done|].
  destruct (is_space c) eqn:Hc; [done|]. simpl. done.
Qed.

Lemma no_lead_lstrip s : no_lead s → lstrip s = s.
Proof. destruct s as [|c s]; simpl; [done|]. by intros ->. Qed.

Lemma lstrip_suffix s : ∃ ws, s = ws ++ lstrip s.
Proof.
  induction s as [|c s [ws IH]]; simpl; [by exists []|].
  destruct (is_space c).
  - exists (c :: ws). simpl. by f_equal.
  - by exists [].
Qed.

Lemma no_lead_app_l s t : s ≠ [] → no_lead (s ++ t) → no_lead s.
Proof. by destruct s. Qed.

Lemma rstrip_no_trail s : no_lead (reverse (rstrip s)).
Proof. unfold rstrip. rewrite reverse_involutive. apply lstrip_no_lead. Qed.

Lemma lstrip_no_trail s : no_lead (reverse s) → no_lead (reverse (lstrip s)).
Proof.
  intros Hs. destruct (lstrip_suffix s) as [ws Hws].
  destruct (lstrip s) as [|c t] eqn:Ht; [done|].
  rewrite Hws, reverse_app in Hs.
  eapply no_lead_app_l; [|exact Hs].
  rewrite reverse_cons. by destruct (reverse t).
Qed.

Lemma strip_no_lead s : no_lead (strip s).
Proof. apply lstrip_no_lead. Qed.

Lemma strip_no_trail s : no_lead (reverse (strip s)).
Proof. apply lstrip_no_trail, rstrip_no_trail. Qed.

Lemma strip_clean s : no_lead s → no_lead (reverse s) → strip s = s.
Proof.
  intros Hl Hr. unfold strip, rstrip.
  rewrite (no_lead_lstrip (reverse s)), reverse_involutive by done.
  by apply no_lead_lstrip.
Qed.

Lemma Forall_lstrip (P : char → Prop) s : Forall P s → Forall P (lstrip s).
Proof.
  intros Hs. destruct (lstrip_suffix s) as [ws Hws].
  rewrite Hws in Hs. by apply Forall_app in Hs as [_ ?].
Qed.

Lemma Forall_strip (P : char → Prop) s : Forall P s → Forall P (strip s).
Proof.
  intros Hs. unfold strip, rstrip.
  by apply Forall_lstrip, Forall_reverse, Forall_lstrip, Forall_reverse.
Qed.

Lemma strip_nil_iff s : strip s = [] ↔ Forall (λ c, is_space c = true) s.
Proof.
  assert (Hl : ∀ t, lstrip t = [] ↔ Forall (λ c, is_space c = true) t).
  { induction t as [|c t IH]; simpl; [by split; [constructor|]|].
    destruct (is_space c) eqn:Hc.
    - rewrite IH. split; [by constructor|by inversion 1].
    - split; [done|]. inversion 1; congruence. }
  unfold strip, rstrip. rewrite Hl. split.
  - intros Hs. apply Forall_reverse in Hs. rewrite reverse_involutive in Hs.
    destruct (lstrip_suffix (reverse s)) as [ws Hws].
    destruct (lstrip (reverse s)) as [|c t] eqn:Ht.
    + apply Hl in Ht. apply Forall_reverse in Ht.
      by rewrite reverse_involutive in Ht.
    + exfalso. assert (Hn := lstrip_no_lead (reverse s)).
      rewrite Ht in Hn. simpl in Hn. inversion Hs; congruence.
  - intros Hs. apply Forall_reverse, Forall_lstrip. by apply Forall_reverse.
Qed.

Lemma sub_class_kept s : Forall kept (Re.sub_class unsafe_char s).
Proof.
  unfold Re.sub_class, kept. induction s as [|c s IH]; simpl; [done|].
  destruct (unsafe_char c) eqn:Hc; simpl; [done|]. by constructor.
Qed.

Lemma sub_class_id s : Forall kept s → Re.sub_class unsafe_char s = s.
Proof.
  unfold Re.sub_class, kept. induction 1 as [|c s Hc _ IH]; [done|].
  simpl. rewrite Hc. simpl. by f_equal.
Qed.

Lemma kept_95 : kept 95.
Proof. unfold kept, unsafe_char, is_word. simpl. by rewrite orb_true_r. Qed.

Lemma replace_Forall (P : char → Prop) s :
  P 95 → Forall P s → Forall P (replace 32 95 s).
Proof.
  intros H95 Hs. unfold replace. apply Forall_fmap.
  eapply Forall_impl; [exact Hs|]. intros c Hc. simpl. by destruct (c =? 32).
Qed.

Lemma replace_no_32 s : Forall (λ c, c ≠ 32) (replace 32 95 s).
Proof.
  unfold replace. apply Forall_fmap, Forall_forall. intros c _. simpl.
  destruct (c =? 32) eqn:Hc; [done|]. by apply N.eqb_neq.
Qed.

Lemma replace_id s : Forall (λ c, c ≠ 32) s → replace 32 95 s = s.
Proof.
  unfold replace. induction 1 as [|c s Hc _ IH]; [done|].
  simpl. apply N.eqb_neq in Hc. rewrite Hc. by f_equal.
Qed.

Lemma replace_no_lead s : no_lead s → no_lead (replace 32 95 s).
Proof.
  destruct s as [|c s]; simpl; [done|].
  destruct (c =? 32); [intros _; apply is_space_95|done].
Qed.

Lemma replace_reverse s : reverse (replace 32 95 s) = replace 32 95 (reverse s).
Proof. unfold replace. by rewrite fmap_reverse. Qed.

(** A clean title is left as it is. *)
Lemma sanitize_clean s :
  Forall kept s → Forall (λ c, c ≠ 32) s → no_lead s → no_lead (reverse s) →
  sanitize s = s.
Proof.
  intros Hk H32 Hl Hr. unfold sanitize.
  by rewrite sub_class_id, strip_clean, replace_id.
Qed.

Lemma sanitize_chars s : Forall title_char (sanitize s).
Proof.
  unfold sanitize, replace. apply Forall_fmap.
  eapply Forall_impl; [apply Forall_strip, sub_class_kept|].
  intros c Hc. simpl. unfold title_char.
  destruct (N.eqb_spec c 32) as [->|Hne].
  - left. unfold is_word. by rewrite orb_true_r.
  - unfold kept, unsafe_char in Hc. apply negb_false_iff in Hc.
    apply orb_true_iff in Hc as [Hc|Hc]; [apply orb_true_iff in Hc as [Hc|Hc]|].
    + by left.
    + by right; right.
    + right; left. by apply N.eqb_eq.
Qed.

Lemma sanitize_nil_iff s :
  sanitize s = [] ↔ Forall (λ c, kept c → is_space c = true) s.
Proof.
  unfold sanitize, replace.
  transitivity (strip (Re.sub_class unsafe_char s) = []).
  { split; [apply fmap_nil_inv|by intros ->]. }
  rewrite strip_nil_iff.
  unfold Re.sub_class, kept. induction s as [|c s IH]; simpl.
  - split; intros _; constructor.
  - destruct (unsafe_char c) eqn:Hc; simpl.
    + rewrite IH. split; [|by inversion 1].
      intros Hs. constructor; [congruence|done].
    + rewrite !Forall_cons, IH. intuition.
Qed.

End TextFacts.

(** ** Deduplication *)

Section Dedup.
Implicit Types (l : list str) (seen : gset str) (x : str).

Lemma dedup_loop_acc l seen (u : list str) :
  dedup_loop l seen u = u ++ dedup_loop l seen [].
Proof.
  revert seen u. induction l as [|x l IH]; intros seen u; simpl.
  - by rewrite app_nil_r.
  - destruct (decide (x ∉ seen)); [|done].
    rewrite (IH _ (u ++ [x])), (IH _ [x]). by rewrite <- app_assoc.
Qed.

Lemma dedup_loop_cons_new l seen x :
  x ∉ seen →
  dedup_loop (x :: l) seen [] = x :: dedup_loop l ({[x]} ∪ seen) [].
Proof.
  intros Hx. simpl. rewrite decide_True by done. by rewrite dedup_loop_acc.
Qed.

Lemma dedup_loop_cons_seen l seen x :
  x ∈ seen → dedup_loop (x :: l) seen [] = dedup_loop l seen [].
Proof. intros Hx. simpl. rewrite decide_False; [done|]. by intros []. Qed.

Lemma dedup_loop_elem l seen x :
  x ∈ dedup_loop l seen [] ↔ x ∈ l ∧ x ∉ seen.
Proof.
  revert seen. induction l as [|y l IH]; intros seen.
  - simpl. rewrite elem_of_nil. intuition.
  - destruct (decide (y ∈ seen)) as [Hy|Hy].
    + rewrite dedup_loop_cons_seen, IH, elem_of_cons by done.
      split; [intuition|]. intros [[->|?] ?]; [done|intuition].
    + rewrite dedup_loop_cons_new, !elem_of_cons, IH by done.
      rewrite elem_of_union, elem_of_singleton.
      destruct (decide (x = y)) as [->|Hne]; intuition.
Qed.

Lemma dedup_loop_NoDup l seen : NoDup (dedup_loop l seen []).
Proof.
  revert seen. induction l as [|y l IH]; intros seen.
  - constructor.
  - destruct (decide (y ∈ seen)) as [Hy|Hy].
    + rewrite dedup_loop_cons_seen by done. apply IH.
    + rewrite dedup_loop_cons_new by done. constructor; [|apply IH].
      rewrite dedup_loop_elem, elem_of_union, elem_of_singleton. intuition.
Qed.

Lemma dedup_loop_length l seen :
  (length (dedup_loop l seen []) ≤ length l)%nat.
Proof.
  revert seen. induction l as [|y l IH]; intros seen; [done|].
  destruct (decide (y ∈ seen)) as [Hy|Hy].
  - rewrite dedup_loop_cons_seen by done. specialize (IH seen). simpl. lia.
  - rewrite dedup_loop_cons_new by done. specialize (IH ({[y]} ∪ seen)).
    simpl. lia.
Qed.

Lemma dedup_loop_app l1 l2 seen :
  dedup_loop (l1 ++ l2) seen [] =
  dedup_loop l1 seen [] ++ dedup_loop l2 (list_to_set l1 ∪ seen) [].
Proof.
  revert seen. induction l1 as [|y l1 IH]; intros seen.
  - simpl. by rewrite (left_id_L ∅ (∪)).
  - destruct (decide (y ∈ seen)) as [Hy|Hy].
    + rewrite <- app_comm_cons, !dedup_loop_cons_seen, IH by done.
      f_equal. f_equal. apply leibniz_equiv. intros z.
      rewrite list_to_set_cons, !elem_of_union, elem_of_singleton.
      intuition congruence.
    + rewrite <- app_comm_cons, !dedup_loop_cons_new, IH by done.
      rewrite <- app_comm_cons. f_equal. f_equal. f_equal.
      apply leibniz_equiv. intros z.
      rewrite list_to_set_cons, !elem_of_union, elem_of_singleton. intuition.
Qed.

Lemma dedup_first_occurrence l1 x l2 :
  x ∉ l1 →
  ∃ later, dedup (l1 ++ x :: l2) = dedup l1 ++ x :: later.
Proof.
  intros Hx. unfold dedup. rewrite dedup_loop_app, dedup_loop_cons_new.
  - eauto.
  - rewrite elem_of_union, elem_of_list_to_set, elem_of_empty. intuition.
Qed.

End Dedup.

Lemma first_occurrence_split (l : list str) x :
  x ∈ l → ∃ l1 l2, l = l1 ++ x :: l2 ∧ x ∉ l1.
Proof.
  induction l as [|y l IH]; [by intros ?%elem_of_nil|].
  destruct (decide (x = y)) as [->|Hne].
  - intros _. exists [], l. split; [done|]. apply not_elem_of_nil.
  - intros [?|Hin]%elem_of_cons; [done|].
    destruct (IH Hin) as (l1 & l2 & -> & Hl1).
    exists (y :: l1), l2. split; [done|]. rewrite elem_of_cons. intuition.
Qed.

Lemma first_occurrence_length (l1 l2 : list str) x :
  x ∉ l1 → first_occurrence (l1 ++ x :: l2) x (length l1).
Proof.
  intros Hx. split.
  - by rewrite list_lookup_middle.
  - intros k Hk Hlook. rewrite lookup_app_l in Hlook by done.
    apply Hx. by eapply list_elem_of_lookup_2.
Qed.

(** ** The matcher *)

Section ReFacts.
Import Re.
Implicit Types (p : pattern) (s m : str) (g : list str).

Lemma greedy_rest cls rest s run r :
  greedy cls rest s = Some (run, r) →
  run ≠ [] ∧ ∃ s', s = run ++ s' ∧ rest s' = Some r.
Proof.
  revert run r. induction s as [|d s IH]; intros run r; simpl; [done|].
  destruct (cls d); [|done].
  destruct (greedy cls rest s) as [[run' r']|] eqn:Hg.
  - intros [= <- <-]. destruct (IH _ _ eq_refl) as (_ & s' & -> & Hr).
    split; [done|]. by exists s'.
  - destruct (rest s) as [r'|] eqn:Hr; [|done].
    intros [= <- <-]. split; [done|]. by exists s.
Qed.

(** The text matched is a prefix of the subject. *)
Lemma match_at_prefix p s m g :
  match_at p s = Some (m, g) → ∃ s', s = m ++ s'.
Proof.
  revert s m g. induction p as [|[c|cls cap] p IH]; intros s m g; simpl.
  - intros [= <- <-]. by exists s.
  - destruct s as [|d s]; [done|]. destruct (c =? d); [|done].
    destruct (match_at p s) as [[m' g']|] eqn:Hm; [|done].
    intros [= <- <-]. destruct (IH _ _ _ Hm) as [s' ->]. by exists s'.
  - destruct (greedy cls (match_at p) s) as [[run [m' g']]|] eqn:Hg; [|done].
    intros [= <- <-]. apply greedy_rest in Hg as (_ & s' & -> & Hm).
    destruct (IH _ _ _ Hm) as [s'' ->]. exists s''. by rewrite <- app_assoc.
Qed.

(** A match has one group for each capturing node of the pattern. *)
Lemma match_at_groups p s m g :
  match_at p s = Some (m, g) → length g = length (List.filter captures p).
Proof.
  revert s m g. induction p as [|[c|cls cap] p IH]; intros s m g; simpl.
  - by intros [= <- <-].
  - destruct s as [|d s]; [done|]. destruct (c =? d); [|done].
    destruct (match_at p s) as [[m' g']|] eqn:Hm; [|done].
    intros [= <- <-]. eauto.
  - destruct (greedy cls (match_at p) s) as [[run [m' g']]|] eqn:Hg; [|done].
    intros [= <- <-]. apply greedy_rest in Hg as (_ & s' & -> & Hm).
    apply IH in Hm. destruct cap; simpl; by rewrite Hm.
Qed.

(** A pattern that starts with a literal character matches no empty
    text. *)
Lemma match_at_Char_nonempty c p s m g :
  match_at (Char c :: p) s = Some (m, g) → m ≠ [].
Proof.
  simpl. destruct s as [|d s]; [done|]. destruct (c =? d); [|done].
  destruct (match_at p s) as [[m' g']|]; [|done]. by intros [= <- <-].
Qed.

Lemma search_match_at p s r :
  search p s = Some r → ∃ s', match_at p s' = Some r.
Proof.
  induction s as [|d s IH]; simpl.
  - destruct (match_at p []) eqn:Hm; [|done]. intros [= <-]. eauto.
  - destruct (match_at p (d :: s)) eqn:Hm; [intros [= <-]; eauto|]. done.
Qed.

Lemma findall_go_match_at p skip s m :
  m ∈ findall_go p skip s → ∃ s' g, match_at p s' = Some (m, g).
Proof.
  revert skip. induction s as [|d s IH]; intros skip; simpl.
  - by intros ?%elem_of_nil.
  - destruct skip as [|k]; [|apply IH].
    destruct (match_at p (d :: s)) as [[m' g']|] eqn:Hm; [|apply IH].
    intros [->|Hin]%elem_of_cons; [eauto|]. by eapply IH.
Qed.

End ReFacts.

Lemma title_match_one_group (s : str) m g :
  Re.search title_pattern s = Some (m, g) → ∃ title_text, g = [title_text].
Proof.
  intros (s' & Hm%match_at_groups)%search_match_at.
  change (length g = 1%nat) in Hm.
  destruct g as [|t [|??]]; try done. by exists t.
Qed.

Lemma mp3_url_nonempty (s : str) url :
  url ∈ Re.findall mp3_pattern s → url ≠ [].
Proof.
  intros (s' & g & Hm)%findall_go_match_at.
  by apply (match_at_Char_nonempty 104 (tail mp3_pattern)) in Hm.
Qed.

(** The repetition runs up to the double quote and is cut back to the
    last [.mp3] before it. *)
Example findall_backtracks :
  Re.findall mp3_pattern
    (lit "src=" ++ dq ++ asset "a.mp3 b.mp3?x" ++ dq ++ lit " x.mp3") =
  [asset "a.mp3 b.mp3"].
Proof. vm_compute. reflexivity. Qed.

(** A link needs a character between the prefix and [.mp3], and matches
    do not overlap. *)
Example findall_scans_on :
  Re.findall mp3_pattern
    (dq ++ asset ".mp3" ++ dq ++ asset "a.mp3" ++ asset "b.mp3" ++ dq) =
  [asset "a.mp3" ++ asset "b.mp3"].
Proof. vm_compute. reflexivity. Qed.

(** The title element is the first one with a non-empty text. *)
Example title_element_first :
  title_element (lit "<title></title><title>one</title><title>two</title>") =
  Some (lit "one").
Proof. vm_compute. reflexivity. Qed.

(** ** Splitting *)

Example split_song_name :
  split (lit " - ") (lit "My Song - Great Hit | Udio") =
  [lit "My Song"; lit "Great Hit | Udio"].
Proof. vm_compute. reflexivity. Qed.

Lemma split_go_cons sep cur c (s : str) :
  split_go sep 0 cur (c :: s) =
  if startswith (c :: s) sep
  then reverse cur :: split_go sep (length sep - 1) [] s
  else split_go sep 0 (c :: cur) s.
Proof. done. Qed.

Lemma split_go_nonempty sep skip cur (s : str) :
  ∃ a rest, split_go sep skip cur s = a :: rest.
Proof.
  revert skip cur. induction s as [|c s IH]; intros skip cur; [simpl; eauto|].
  destruct skip; [|apply IH]. rewrite split_go_cons.
  destruct (startswith (c :: s) sep); [eauto|apply IH].
Qed.

Lemma split_head sep (s : str) : ∃ a rest, split sep s = a :: rest.
Proof. apply split_go_nonempty. Qed.

Lemma contains_cons sub c (s : str) :
  contains sub (c :: s) = startswith (c :: s) sub || contains sub s.
Proof. done. Qed.

Lemma split_go_second sep cur (s : str) :
  sep ≠ [] → contains sep s = true →
  ∃ a b rest, split_go sep 0 cur s = a :: b :: rest.
Proof.
  intros Hsep. revert cur. induction s as [|c s IH]; intros cur.
  - destruct sep; done.
  - rewrite contains_cons, split_go_cons.
    destruct (startswith (c :: s) sep); simpl.
    + intros _. destruct (split_go_nonempty sep (length sep - 1) [] s) as (b & rest & ->).
      eauto.
    + apply IH.
Qed.

Lemma split_second sep (s : str) :
  sep ≠ [] → contains sep s = true → ∃ a b rest, split sep s = a :: b :: rest.
Proof. apply split_go_second. Qed.

(** ** The monad *)

Ltac munfold :=
  unfold mbind, M_bind, mret, M_ret, call, raise, sys_exit, emit,
    try_except_Exception, try_except, index in *.

Lemma bind_Return {A B} (m : M A) (f : A → M B) tr a tr' :
  m tr = (Return a, tr') → (m ≫= f) tr = f a tr'.
Proof. intros Hm. unfold mbind, M_bind. by rewrite Hm. Qed.

Lemma bind_Raise {A B} (m : M A) (f : A → M B) tr e tr' :
  m tr = (Raise e, tr') → (m ≫= f) tr = (Raise e, tr').
Proof. intros Hm. unfold mbind, M_bind. by rewrite Hm. Qed.

Lemma bind_SysExit {A B} (m : M A) (f : A → M B) tr c tr' :
  m tr = (SysExit c, tr') → (m ≫= f) tr = (SysExit c, tr').
Proof. intros Hm. unfold mbind, M_bind. by rewrite Hm. Qed.

Lemma raise_for_status_eq (status : Z) (tr : trace) :
  raise_for_status status tr =
  if ((400 <=? status) && (status <? 600))%Z
  then (Raise RequestException, tr)
  else (Return (), tr).
Proof. unfold raise_for_status. by destruct (_ && _). Qed.

#[local] Arguments raise_for_status : simpl never.

Lemma true_divide_eq (a b : Z) (tr : trace) :
  true_divide a b tr =
  if (b =? 0)%Z then (Raise ZeroDivisionError, tr)
  else if float_overflows a b then (Raise OverflowError, tr)
       else (Return (), tr).
Proof. unfold true_divide. by repeat case_match. Qed.

#[local] Arguments true_divide : simpl never.
#[local] Arguments float_overflows : simpl never.

(** The smaller the dividend, the smaller the quotient. *)
Lemma float_overflows_le (a a' b : Z) :
  (Z.abs a ≤ Z.abs a')%Z →
  float_overflows a' b = false → float_overflows a b = false.
Proof.
  unfold float_overflows. generalize ((2 ^ 1024 - 2 ^ 970) * Z.abs b)%Z.
  intros bound Hle Ha'. apply Z.leb_gt. apply Z.leb_gt in Ha'. lia.
Qed.

Lemma float_overflows_0 (b : Z) : b ≠ 0%Z → float_overflows 0 b = false.
Proof.
  intros Hb. unfold float_overflows. apply Z.leb_gt.
  assert (0 < 2 ^ 1024 - 2 ^ 970)%Z by reflexivity.
  change (Z.abs 0) with 0%Z. generalize dependent (2 ^ 1024 - 2 ^ 970)%Z. nia.
Qed.

(** ** Printing *)

Section PrintFacts.
Context {W : World}.
Implicit Types (s : str) (tr : trace).

Lemma print_eq s tr :
  print s tr = if printable s then (Return (), tr) else (Raise UnicodeEncodeError, tr).
Proof. unfold print. by destruct (printable s). Qed.

Lemma print_ok s tr : printable s = true → print s tr = (Return (), tr).
Proof. intros Hs. by rewrite print_eq, Hs. Qed.

Lemma print_fails s tr :
  printable s = false → print s tr = (Raise UnicodeEncodeError, tr).
Proof. intros Hs. by rewrite print_eq, Hs. Qed.

Lemma printable_nil : printable [] = true.
Proof. done. Qed.

Lemma printable_cons c s : printable (c :: s) = encodable c && printable s.
Proof. done. Qed.

Lemma printable_app s1 s2 : printable (s1 ++ s2) = printable s1 && printable s2.
Proof. apply forallb_app. Qed.

Lemma encodable_ascii c : (c <? 128) = true → encodable c = true.
Proof. intros Hc. unfold encodable. by rewrite Hc. Qed.

Lemma printable_ascii s : forallb (λ c, c <? 128) s = true → printable s = true.
Proof.
  unfold printable. rewrite !forallb_forall. intros Hs c Hc.
  by apply encodable_ascii, Hs.
Qed.

Lemma printable_Forall s : printable s = true ↔ Forall (λ c, encodable c = true) s.
Proof.
  unfold printable. rewrite forallb_forall, Forall_forall.
  split; intros Hs c Hc; apply Hs; by apply list_elem_of_In.
Qed.

(** A text the standard output cannot encode holds a character it
    cannot encode. *)
Lemma unprintable_char s : printable s = false → ∃ c, c ∈ s ∧ encodable c = false.
Proof.
  induction s as [|c s IH]; [done|]. rewrite printable_cons.
  destruct (encodable c) eqn:Hc; simpl.
  - intros (c' & Hin & Hc')%IH. exists c'. split; [by apply elem_of_cons; right|done].
  - intros _. exists c. split; [by apply elem_of_cons; left|done].
Qed.

Lemma printable_builtin e : builtin_text e = true → printable (str_exn e) = true.
Proof. intros He. by apply printable_ascii, str_exn_ascii. Qed.

End PrintFacts.

#[local] Arguments print : simpl never.

(** Texts made of literals: what is left to decide is whether the
    variable parts can be encoded. *)
Ltac printable_norm :=
  repeat first
    [ rewrite printable_app
    | rewrite printable_cons
    | rewrite printable_nil
    | rewrite (printable_ascii (lit _)) by reflexivity
    | rewrite (printable_builtin UnicodeEncodeError) by reflexivity
    | rewrite (printable_builtin ZeroDivisionError) by reflexivity
    | rewrite (printable_builtin OverflowError) by reflexivity
    | rewrite (printable_builtin IndexError) by reflexivity
    | rewrite (encodable_ascii 10) by reflexivity
    | rewrite (encodable_ascii 13) by reflexivity ];
  rewrite ?andb_true_r, ?andb_true_l.

(** ** The program *)

Section ProgramFacts.
Context {U : UnicodeDB} {W : World}.
Implicit Types (url : str) (tr : trace).

(** *** The validator *)

Lemma is_valid_udio_url_eq url tr :
  is_valid_udio_url url tr =
  (Return match urlparse url with
          | inr parsed =>
              bool_decide (netloc parsed = lit "www.udio.com") &&
              contains (lit "/songs/") (path parsed)
          | inl _ => false
          end, tr).
Proof. unfold is_valid_udio_url. munfold. by destruct (urlparse url). Qed.

(** *** The probe loop *)

Lemma probe_failed_eq e tr :
  probe_failed e tr =
  if encodable cross_mark && printable (str_exn e)
  then (Return (), tr) else (Raise UnicodeEncodeError, tr).
Proof. unfold probe_failed. rewrite print_eq. by printable_norm. Qed.

(** One pass of the loop. *)
Lemma probe_loop_cons audio_url url rest tr :
  probe_loop audio_url (url :: rest) tr =
  let tr1 := tr ++ [EHead url 5] in
  match requests_head url with
  | inr head_status =>
      if (head_status =? 200)%Z
      then if encodable check_mark then (Return (Some url), tr1)
           else if encodable cross_mark then probe_loop (Some url) rest tr1
                else (Raise UnicodeEncodeError, tr1)
      else if encodable cross_mark then probe_loop audio_url rest tr1
           else (Raise UnicodeEncodeError, tr1)
  | inl e =>
      if encodable cross_mark && printable (str_exn e)
      then probe_loop audio_url rest tr1
      else (Raise UnicodeEncodeError, tr1)
  end.
Proof.
  cbn [probe_loop]. unfold mbind at 1, M_bind at 1.
  unfold try_except_Exception at 1.
  rewrite (bind_Return _ _ tr () tr) by (apply print_ok; by printable_norm).
  erewrite (bind_Return _ _ tr () _) by reflexivity.
  cbv zeta.
  destruct (requests_head url) as [e|head_status].
  - erewrite bind_Raise by reflexivity.
    unfold mbind at 1, M_bind at 1. rewrite probe_failed_eq.
    by destruct (_ && _).
  - erewrite bind_Return by reflexivity.
    destruct (head_status =? 200)%Z.
    + unfold mret at 1, M_ret at 1. unfold try_except_Exception.
      unfold mbind at 1, M_bind at 1. rewrite print_eq. printable_norm.
      destruct (encodable check_mark); [done|].
      unfold mbind at 1, M_bind at 1. rewrite probe_failed_eq. printable_norm.
      by destruct (encodable cross_mark).
    + unfold mbind at 1, M_bind at 1. rewrite print_eq. printable_norm.
      destruct (encodable cross_mark) eqn:Hx; [done|].
      unfold mbind at 1, M_bind at 1. rewrite probe_failed_eq, Hx. done.
Qed.

(** With the marks and the texts of the exceptions encodable, the loop
    breaks at the first candidate whose probe succeeds. *)
Lemma probe_loop_step audio_url url rest tr :
  probe_prints →
  probe_loop audio_url (url :: rest) tr =
  if probe_ok url
  then (Return (Some url), tr ++ [EHead url 5])
  else probe_loop audio_url rest (tr ++ [EHead url 5]).
Proof.
  intros (Hcheck & Hcross & Htext). rewrite probe_loop_cons. cbv zeta.
  unfold probe_ok. rewrite Hcheck, Hcross.
  destruct (requests_head url) as [e|head_status] eqn:Hhead; [|done].
  by rewrite (Htext url e Hhead).
Qed.


Lemma probe_loop_first_ok audio_url before url after tr :
  probe_prints →
  Forall (λ url, probe_ok url = false) before → probe_ok url = true →
  probe_loop audio_url (before ++ url :: after) tr =
  (Return (Some url), tr ++ probes (before ++ [url])).
Proof.
  intros Hp Hall Hurl. revert tr.
  induction Hall as [|url' rest Hurl' _ IH]; intros tr.
  - simpl app. by rewrite probe_loop_step, Hurl.
  - rewrite <- !app_comm_cons, probe_loop_step, Hurl', IH by done.
    unfold probes. simpl. by rewrite <- app_assoc.
Qed.

(** Whatever the standard output, the loop ends by returning or with the
    [UnicodeEncodeError] of a print; it has probed the first candidates, in
    order; and the variable it returns is the one it started with or a
    candidate. *)
Lemma probe_loop_cases audio_url urls tr :
  ∃ probed o,
    probe_loop audio_url urls tr = (o, tr ++ probes probed) ∧
    probed `prefix_of` urls ∧
    (o = Raise UnicodeEncodeError ∨
     ∃ found, o = Return found ∧
              (found = audio_url ∨ ∃ url, found = Some url ∧ url ∈ urls)).
Proof.
  revert audio_url tr. induction urls as [|url rest IH]; intros audio_url tr.
  - exists [], (Return audio_url). split; [by rewrite app_nil_r|].
    split; [done|]. right. exists audio_url. split; [done|by left].
  - rewrite probe_loop_cons. cbv zeta.
    assert (Hnext : ∀ a, (a = audio_url ∨ a = Some url) →
      ∃ probed o,
        probe_loop a rest (tr ++ [EHead url 5]) = (o, tr ++ probes probed) ∧
        probed `prefix_of` url :: rest ∧
        (o = Raise UnicodeEncodeError ∨
         ∃ found, o = Return found ∧
                  (found = audio_url ∨ ∃ url', found = Some url' ∧ url' ∈ url :: rest))).
    { intros a Ha. destruct (IH a (tr ++ [EHead url 5])) as (probed & o & -> & Hpre & Ho).
      exists (url :: probed), o. split; [by rewrite <- app_assoc|].
      split; [by apply prefix_cons|].
      destruct Ho as [->|(found & -> & Hfound)]; [by left|]. right.
      exists found. split; [done|].
      destruct Hfound as [->|(url' & -> & Hin)].
      - destruct Ha as [->| ->]; [by left|].
        right. exists url. split; [done|]. apply elem_of_cons. by left.
      - right. exists url'. split; [done|]. apply elem_of_cons. by right. }
    assert (Hstop : ∀ o,
      (o = Raise UnicodeEncodeError ∨ o = Return (Some url)) →
      ∃ probed o',
        (o, tr ++ [EHead url 5]) = (o', tr ++ probes probed) ∧
        probed `prefix_of` url :: rest ∧
        (o' = Raise UnicodeEncodeError ∨
         ∃ found, o' = Return found ∧
                  (found = audio_url ∨ ∃ url', found = Some url' ∧ url' ∈ url :: rest))).
    { intros o Ho. exists [url], o. split; [done|].
      split; [by apply prefix_cons, prefix_nil|].
      destruct Ho as [->| ->]; [by left|]. right. exists (Some url).
      split; [done|]. right. exists url. split; [done|]. apply elem_of_cons. by left. }
    destruct (requests_head url) as [e|head_status].
    + destruct (_ && _); [apply Hnext; by left|apply Hstop; by left].
    + destruct (head_status =? 200)%Z.
      * destruct (encodable check_mark); [apply Hstop; by right|].
        destruct (encodable cross_mark); [apply Hnext; by right|apply Hstop; by left].
      * destruct (encodable cross_mark); [apply Hnext; by left|apply Hstop; by left].
Qed.

(** *** The title *)

Lemma is_word_ascii c : c < 128 → ascii_isalnum c = true → is_word c = true.
Proof. intros Hc Ha. unfold is_word. by rewrite isalnum_ascii, Ha. Qed.

Lemma is_space_ascii c : c < 128 → is_space c = ascii_isspace c.
Proof. apply isspace_ascii. Qed.

Lemma default_title_chars :
  Forall (λ c, c < 128 ∧ (ascii_isalnum c = true ∨ c = 95)) (lit "udio_song").
Proof.
  change (lit "udio_song") with [117; 100; 105; 111; 95; 115; 111; 110; 103].
  repeat (apply Forall_cons; split; [split; [done|]; first [by left|by right]|]).
  apply Forall_nil_2.
Qed.

Lemma word_title_char c :
  c < 128 → ascii_isalnum c = true ∨ c = 95 → title_char c.
Proof.
  intros Hc [Ha| ->]; left; [by apply is_word_ascii|].
  unfold is_word. by rewrite orb_true_r.
Qed.

Lemma word_kept c : c < 128 → ascii_isalnum c = true ∨ c = 95 → kept c.
Proof.
  intros Hc Ha. unfold kept, unsafe_char.
  destruct (word_title_char c Hc Ha) as [->|[->|[? ?]]]; [done| |].
  - by rewrite orb_true_r.
  - replace (is_space c) with true. by rewrite orb_true_r.
Qed.

Lemma sanitize_default : sanitize (lit "udio_song") = lit "udio_song".
Proof.
  apply sanitize_clean.
  - eapply Forall_impl; [apply default_title_chars|]. intros c [? ?].
    by apply word_kept.
  - by repeat constructor.
  - simpl. by rewrite is_space_ascii.
  - simpl. by rewrite is_space_ascii.
Qed.

Lemma title_element_search body :
  title_element body =
  match Re.search title_pattern body with
  | Some (_, groups) => groups !! 0%nat
  | None => None
  end.
Proof.
  unfold title_element.
  destruct (Re.search title_pattern body) as [[m g]|] eqn:Hs; [|done].
  by destruct g.
Qed.

(** The name taken from a title text, before it is sanitized. *)
Lemma song_title_of_eq body tr :
  ∃ song_title,
    song_title_of body tr = (Return song_title, tr) ∧
    match title_element body with
    | None => song_title = lit "udio_song"
    | Some title_text =>
        if contains (lit " - ") title_text
        then ∃ part rest rest' name,
               split (lit " - ") title_text = rest' :: part :: rest ∧
               split (lit " | ") part !! 0%nat = Some name ∧
               song_title = sanitize (strip name)
        else song_title = lit "udio_song"
    end.
Proof.
  rewrite title_element_search. unfold song_title_of.
  destruct (Re.search title_pattern body) as [[m g]|] eqn:Hs; [|by eexists].
  destruct (title_match_one_group _ _ _ Hs) as [title_text ->].
  munfold. simpl.
  destruct (contains (lit " - ") title_text) eqn:Hc.
  - destruct (split_second (lit " - ") title_text) as (a & part & rest & Hsp);
      [done|done|].
    rewrite Hsp. simpl.
    destruct (split_head (lit " | ") part) as (name & rest2 & Hsp2).
    rewrite Hsp2. simpl. eexists. split; [done|].
    exists part, rest, a, name. by rewrite Hsp2.
  - eexists. split; [done|]. apply sanitize_default.
Qed.

(** What every derived title satisfies. *)
Lemma song_title_of_spec body tr :
  ∃ song_title,
    song_title_of body tr = (Return song_title, tr) ∧
    Forall title_char song_title ∧
    (title_element body = None → song_title = lit "udio_song") ∧
    (∀ title_text, title_element body = Some title_text →
       contains (lit " - ") title_text = false → song_title = lit "udio_song") ∧
    (song_title = [] →
       ∃ title_text, title_element body = Some title_text ∧
                     contains (lit " - ") title_text = true).
Proof.
  destruct (song_title_of_eq body tr) as (t & Ht & Hcase).
  exists t. split; [done|].
  assert (Hdef : Forall title_char (lit "udio_song")).
  { eapply Forall_impl; [apply default_title_chars|]. intros c [? ?].
    by apply word_title_char. }
  destruct (title_element body) as [title_text|].
  - destruct (contains (lit " - ") title_text) eqn:Hc.
    + destruct Hcase as (part & rest & rest' & name & _ & _ & ->).
      split; [apply sanitize_chars|]. split; [done|]. split.
      * intros ? [= <-]. congruence.
      * intros _. by exists title_text.
    + subst t. split; [done|]. split; [done|]. split; [done|]. done.
  - subst t. split; [done|]. split; [done|]. split; [done|]. done.
Qed.

(** *** Extraction *)

(** The derived title is made of characters of the title text, of
    underscores and of the characters of the default name. *)
Lemma Forall_split_go (P : char → Prop) sep skip cur (s : str) :
  Forall P s → Forall P cur → Forall (Forall P) (split_go sep skip cur s).
Proof.
  intros Hs. revert skip cur. induction Hs as [|c s Hc Hs IH]; intros skip cur Hcur.
  - simpl. apply Forall_singleton. by apply Forall_reverse.
  - simpl. destruct skip as [|k]; [|by apply IH].
    match goal with |- context [if ?b then _ else _] => destruct b end.
    + apply Forall_cons. split; [by apply Forall_reverse|]. by apply IH.
    + apply IH. by apply Forall_cons.
Qed.

Lemma Forall_split (P : char → Prop) sep (s piece : str) :
  Forall P s → piece ∈ split sep s → Forall P piece.
Proof.
  intros Hs Hin. unfold split in Hin.
  assert (Hall := Forall_split_go P sep 0 [] s Hs (Forall_nil_2 _)).
  rewrite Forall_forall in Hall. by apply Hall.
Qed.

Lemma Forall_sanitize (P : char → Prop) (s : str) :
  P 95 → Forall P s → Forall P (sanitize s).
Proof.
  intros H95 Hs. unfold sanitize. apply replace_Forall; [done|].
  apply Forall_strip. unfold Re.sub_class.
  rewrite Forall_forall in Hs. apply Forall_forall.
  intros c [Hc _]%list_elem_of_In%filter_In. by apply Hs, list_elem_of_In.
Qed.

Lemma song_title_printable body tr song_title tr' :
  song_title_of body tr = (Return song_title, tr') →
  (∀ title_text, title_element body = Some title_text → printable title_text = true) →
  printable song_title = true.
Proof.
  intros Hrun Htext.
  destruct (song_title_of_eq body tr) as (t & Ht & Hcase).
  rewrite Hrun in Ht. injection Ht as <- _.
  destruct (title_element body) as [title_text|]; [|subst; by apply printable_ascii].
  destruct (contains (lit " - ") title_text); [|subst; by apply printable_ascii].
  destruct Hcase as (part & rest & rest' & name & Hsplit & Hname & ->).
  apply printable_Forall, Forall_sanitize; [done|]. apply Forall_strip.
  apply (Forall_split _ (lit " | ") part); [|by eapply list_elem_of_lookup_2].
  apply (Forall_split _ (lit " - ") title_text).
  - by apply printable_Forall, Htext.
  - rewrite Hsplit. apply elem_of_cons. right. apply elem_of_cons. by left.
Qed.

(** *** Extraction *)

Lemma handled_builtin {A} e (a : A) tr :
  builtin_text e = true → handled e a tr = (Return a, tr).
Proof. intros He. unfold handled. by rewrite printable_builtin. Qed.

(** Up to the [try]: the print of line 40. *)
Lemma extract_unprintable url tr :
  printable url = false → extract_audio_url url tr = (Raise UnicodeEncodeError, tr).
Proof.
  intros Hurl. unfold extract_audio_url.
  erewrite bind_Raise; [done|]. apply print_fails. printable_norm. done.
Qed.

(** What the handlers of lines 99-104 make of an exception [e] that the
    body has raised. *)
Lemma extract_caught url tr (body : M (option str * option str)) e tr' :
  printable url = true →
  (emit (EGet url 10);; body) tr = (Raise e, tr') →
  (print (lit "[1/3] Fetching Udio page: " ++ url);;
   try_except_Exception (emit (EGet url 10);; body)
     (λ e,
        match e with
        | RequestException =>
            print (lit "ERROR: Failed to fetch URL: " ++ str_exn e);;
            mret (None, None)
        | _ =>
            print (lit "ERROR: An error occurred: " ++ str_exn e);;
            mret (None, None)
        end)) tr = handled e (None, None) tr'.
Proof.
  intros Hurl Hbody.
  erewrite bind_Return by (apply print_ok; by printable_norm).
  unfold try_except_Exception. rewrite Hbody. unfold handled.
  destruct e; unfold mbind, M_bind; rewrite print_eq; printable_norm;
    try reflexivity;
    match goal with |- context [printable ?s] => destruct (printable s) end;
    reflexivity.
Qed.

Lemma extract_returned url tr (body : M (option str * option str)) r tr' :
  printable url = true →
  (emit (EGet url 10);; body) tr = (Return r, tr') →
  (print (lit "[1/3] Fetching Udio page: " ++ url);;
   try_except_Exception (emit (EGet url 10);; body)
     (λ e,
        match e with
        | RequestException =>
            print (lit "ERROR: Failed to fetch URL: " ++ str_exn e);;
            mret (None, None)
        | _ =>
            print (lit "ERROR: An error occurred: " ++ str_exn e);;
            mret (None, None)
        end)) tr = (Return r, tr').
Proof.
  intros Hurl Hbody.
  erewrite bind_Return by (apply print_ok; by printable_norm).
  unfold try_except_Exception. by rewrite Hbody.
Qed.

Lemma extract_fetch_failed url tr e :
  printable url = true → requests_get url = inl e →
  extract_audio_url url tr = handled e (None, None) (tr ++ [EGet url 10]).
Proof.
  intros Hurl Hget. apply extract_caught; [done|].
  erewrite bind_Return by reflexivity. rewrite Hget. by erewrite bind_Raise.
Qed.

Lemma extract_bad_status url tr response :
  printable url = true → requests_get url = inr response →
  ((400 <=? status_code response) && (status_code response <? 600))%Z = true →
  extract_audio_url url tr =
  handled RequestException (None, None) (tr ++ [EGet url 10]).
Proof.
  intros Hurl Hget Hst. apply extract_caught; [done|].
  erewrite bind_Return by reflexivity. rewrite Hget.
  erewrite bind_Return by reflexivity.
  erewrite bind_Raise; [done|]. by rewrite raise_for_status_eq, Hst.
Qed.

Lemma extract_no_links url tr response :
  printable url = true → fetched url response →
  Re.findall mp3_pattern (text response) = [] →
  extract_audio_url url tr = (Return (None, None), tr ++ [EGet url 10]).
Proof.
  intros Hurl [Hget Hst] Hnone. apply extract_returned; [done|].
  erewrite bind_Return by reflexivity. rewrite Hget.
  erewrite bind_Return by reflexivity.
  erewrite bind_Return by (by rewrite raise_for_status_eq, Hst).
  cbv zeta. rewrite Hnone. rewrite bool_decide_eq_true_2 by done.
  erewrite bind_Return by (apply print_ok; by printable_norm). done.
Qed.

Lemma dedup_elem (l : list str) x : x ∈ dedup l ↔ x ∈ l.
Proof. unfold dedup. rewrite dedup_loop_elem, elem_of_empty. intuition. Qed.

Lemma dedup_nonempty (l : list str) : l ≠ [] → ∃ first rest, dedup l = first :: rest.
Proof.
  destruct l as [|x l]; [done|]. intros _.
  unfold dedup. rewrite dedup_loop_cons_new by apply not_elem_of_empty. eauto.
Qed.

(** The body of the [try] up to the probe loop, on a fetched page with a
    link. *)
Ltac extract_start Hget Hst Hlinks :=
  erewrite bind_Return by reflexivity; rewrite Hget;
  erewrite bind_Return by reflexivity;
  erewrite bind_Return by (by rewrite raise_for_status_eq, Hst);
  cbv zeta; rewrite bool_decide_eq_false_2 by done;
  erewrite bind_Return by (apply print_ok; by printable_norm).

(** On a fetched page with at least one link, whose URL the standard
    output can encode: the probes of the first candidates are issued, and
    the function returns, either a candidate with the derived title, or
    the pair of two absent values when a print has raised on the way. *)
Lemma extract_fetched_cases url tr response :
  printable url = true → fetched url response →
  Re.findall mp3_pattern (text response) ≠ [] →
  ∃ first rest probed o,
    dedup (Re.findall mp3_pattern (text response)) = first :: rest ∧
    probe_loop None (first :: rest) (tr ++ [EGet url 10]) =
      (o, (tr ++ [EGet url 10]) ++ probes probed) ∧
    probed `prefix_of` first :: rest ∧
    ((o = Raise UnicodeEncodeError ∧
      extract_audio_url url tr =
        (Return (None, None), (tr ++ [EGet url 10]) ++ probes probed)) ∨
     ∃ found song_title,
       o = Return found ∧
       (found = None ∨ ∃ candidate, found = Some candidate ∧ candidate ∈ first :: rest) ∧
       song_title_of (text response) [] = (Return song_title, []) ∧
       extract_audio_url url tr =
         (if printable song_title
          then Return (Some (default first found), Some song_title)
          else Return (None, None),
          (tr ++ [EGet url 10]) ++ probes probed)).
Proof.
  intros Hurl [Hget Hst] Hlinks.
  destruct (dedup_nonempty _ Hlinks) as (first & rest & Hd).
  destruct (probe_loop_cases None (first :: rest) (tr ++ [EGet url 10]))
    as (probed & o & Hprobe & Hpre & Ho).
  exists first, rest, probed, o. do 3 (split; [done|]).
  destruct Ho as [->|(found & -> & Hfound)].
  - left. split; [done|].
    rewrite <- (handled_builtin UnicodeEncodeError (None, None)) by done.
    apply extract_caught; [done|]. extract_start Hget Hst Hlinks. rewrite Hd.
    by erewrite bind_Raise.
  - right.
    destruct (song_title_of_eq (text response) []) as (t & Ht & _).
    assert (Ht' : ∀ tr', song_title_of (text response) tr' = (Return t, tr')).
    { intros tr'. destruct (song_title_of_eq (text response) tr') as (t' & Ht' & Hcase').
      destruct (song_title_of_eq (text response) []) as (t'' & Ht'' & Hcase'').
      assert (t'' = t) as -> by congruence.
      rewrite Ht'. f_equal. f_equal.
      destruct (title_element (text response)) as [title_text|]; [|congruence].
      destruct (contains (lit " - ") title_text); [|congruence].
      destruct Hcase' as (p1 & r1 & a1 & n1 & Hs1 & Hn1 & ->).
      destruct Hcase'' as (p2 & r2 & a2 & n2 & Hs2 & Hn2 & ->).
      congruence. }
    exists found, t. split; [done|]. split.
    { destruct Hfound as [->|(candidate & -> & Hin)]; [by left|]. right. eauto. }
    split; [done|].
    assert (Hsel : ((if negb (truthy found)
                     then print (lit "      No working URL found, using first URL as fallback");;
                          first' ← index (first :: rest) 0; mret (Some first')
                     else mret found) : M (option str))
                   ((tr ++ [EGet url 10]) ++ probes probed) =
                   (Return (Some (default first found)),
                    (tr ++ [EGet url 10]) ++ probes probed)).
    { destruct Hfound as [->|(candidate & -> & Hin)].
      - simpl. by erewrite bind_Return by (apply print_ok; by printable_norm).
      - assert (candidate ≠ []) as Hne.
        { eapply mp3_url_nonempty, dedup_elem. by rewrite Hd. }
        destruct candidate; [done|]. done. }
    destruct (printable t) eqn:Hprint.
    + apply extract_returned; [done|]. extract_start Hget Hst Hlinks. rewrite Hd.
      erewrite bind_Return by exact Hprobe.
      erewrite bind_Return by exact Hsel.
      erewrite bind_Return by apply Ht'.
      erewrite bind_Return by (apply print_ok; printable_norm; exact Hprint).
      done.
    + rewrite <- (handled_builtin UnicodeEncodeError (None, None)) by done.
      apply extract_caught; [done|]. extract_start Hget Hst Hlinks. rewrite Hd.
      erewrite bind_Return by exact Hprobe.
      erewrite bind_Return by exact Hsel.
      erewrite bind_Return by apply Ht'.
      erewrite bind_Raise; [done|]. apply print_fails. printable_norm. exact Hprint.
Qed.

(** With the marks and the texts of the probe errors encodable, the loop
    returns. *)
Lemma probe_loop_returns audio_url urls tr :
  probe_prints → ∃ found tr', probe_loop audio_url urls tr = (Return found, tr').
Proof.
  intros Hp. revert audio_url tr.
  induction urls as [|u urls IH]; intros audio_url tr; [by eexists _, _|].
  rewrite probe_loop_step by done. destruct (probe_ok u); [by eexists _, _|].
  apply IH.
Qed.

(** With every print going through, the function returns the candidate
    the probe loop found, or else the first candidate, with the derived
    title. *)
Lemma extract_fetched_title url tr response song_title :
  printable url = true → probe_prints → fetched url response →
  Re.findall mp3_pattern (text response) ≠ [] →
  song_title_of (text response) [] = (Return song_title, []) →
  printable song_title = true →
  ∃ first rest found tr',
    dedup (Re.findall mp3_pattern (text response)) = first :: rest ∧
    probe_loop None (first :: rest) (tr ++ [EGet url 10]) = (Return found, tr') ∧
    extract_audio_url url tr =
      (Return (Some (default first found), Some song_title), tr').
Proof.
  intros Hurl Hp Hf Hlinks Htitle Hprint.
  destruct (extract_fetched_cases url tr response Hurl Hf Hlinks)
    as (first & rest & probed & o & Hd & Hprobe & Hpre & Hcase).
  destruct (probe_loop_returns None (first :: rest) (tr ++ [EGet url 10]) Hp)
    as (found & tr' & Hret).
  rewrite Hret in Hprobe. injection Hprobe as <- ->.
  destruct Hcase as [[? _]|(found' & t & [= <-] & _ & Htitle' & Hex)]; [done|].
  assert (t = song_title) as -> by congruence.
  exists first, rest, found, ((tr ++ [EGet url 10]) ++ probes probed).
  do 2 (split; [done|]). by rewrite Hex, Hprint.
Qed.

Lemma extract_fetched url tr response :
  printable url = true → probe_prints → title_prints response →
  fetched url response →
  Re.findall mp3_pattern (text response) ≠ [] →
  ∃ first rest found tr' song_title,
    dedup (Re.findall mp3_pattern (text response)) = first :: rest ∧
    probe_loop None (first :: rest) (tr ++ [EGet url 10]) = (Return found, tr') ∧
    song_title_of (text response) [] = (Return song_title, []) ∧
    extract_audio_url url tr =
      (Return (Some (default first found), Some song_title), tr').
Proof.
  intros Hurl Hp Ht Hf Hlinks.
  destruct (song_title_of_eq (text response) []) as (t & Htitle & _).
  destruct (extract_fetched_title url tr response t Hurl Hp Hf Hlinks Htitle)
    as (first & rest & found & tr' & Hd & Hprobe & Hex).
  { by eapply song_title_printable. }
  by exists first, rest, found, tr', t.
Qed.

(** Every run of the function is one of these: the URL cannot be
    printed; the page is not fetched; the page has no link; the page has
    links, of which the first ones are probed. *)
Lemma extract_cases url tr :
  (printable url = false ∧
   extract_audio_url url tr = (Raise UnicodeEncodeError, tr)) ∨
  (printable url = true ∧
   ((∃ e, (requests_get url = inl e ∨
           ∃ response,
             requests_get url = inr response ∧ e = RequestException ∧
             ((400 <=? status_code response) &&
              (status_code response <? 600))%Z = true) ∧
          extract_audio_url url tr =
            handled e (None, None) (tr ++ [EGet url 10])) ∨
    (∃ response,
       fetched url response ∧ Re.findall mp3_pattern (text response) = [] ∧
       extract_audio_url url tr = (Return (None, None), tr ++ [EGet url 10])) ∨
    (∃ response probed,
       fetched url response ∧
       probed `prefix_of` dedup (Re.findall mp3_pattern (text response)) ∧
       (extract_audio_url url tr =
          (Return (None, None), tr ++ [EGet url 10] ++ probes probed) ∨
        ∃ audio_url song_title,
          audio_url ∈ Re.findall mp3_pattern (text response) ∧
          song_title_of (text response) [] = (Return song_title, []) ∧
          extract_audio_url url tr =
            (Return (Some audio_url, Some song_title),
             tr ++ [EGet url 10] ++ probes probed))))).
Proof.
  destruct (printable url) eqn:Hurl; [right; split; [done|]|left; split; [done|]];
    [|by apply extract_unprintable].
  destruct (requests_get url) as [e|response] eqn:Hget.
  { left. exists e. split; [by left|]. by apply extract_fetch_failed. }
  destruct ((400 <=? status_code response) && (status_code response <? 600))%Z eqn:Hst.
  { left. exists RequestException. split; [right; by exists response|].
    by apply extract_bad_status with response. }
  destruct (decide (Re.findall mp3_pattern (text response) = [])) as [Hnil|Hlinks].
  { right. left. exists response. split; [done|]. split; [done|].
    by apply extract_no_links with response. }
  right. right.
  destruct (extract_fetched_cases url tr response Hurl (conj Hget Hst) Hlinks)
    as (first & rest & probed & o & Hd & _ & Hpre & Hcase).
  exists response, probed. split; [done|]. split; [by rewrite Hd|].
  rewrite app_assoc.
  destruct Hcase as [[_ Hex]|(found & t & _ & Hfound & Ht & Hex)]; [by left|].
  destruct (printable t); [right|by left].
  exists (default first found), t. split; [|done].
  apply dedup_elem. rewrite Hd.
  destruct Hfound as [->|(candidate & -> & Hin)]; [|done].
  apply elem_of_cons. by left.
Qed.

(** *** The downloader *)

Lemma write_chunks_cons (output_path : str) file_size downloaded chunk rest tr :
  write_chunks output_path file_size downloaded (chunk :: rest) tr =
  match file_write output_path chunk with
  | Some e => (Raise e, tr)
  | None =>
      let tr1 := tr ++ [EWrite output_path chunk] in
      let downloaded := (downloaded + length chunk)%nat in
      if truthy file_size
      then match int (default [] file_size) with
           | inl e => (Raise e, tr1)
           | inr total =>
               if (total =? 0)%Z then (Raise ZeroDivisionError, tr1)
               else if float_overflows (Z.of_nat downloaded) total
                    then (Raise OverflowError, tr1)
                    else write_chunks output_path file_size downloaded rest tr1
           end
      else write_chunks output_path file_size downloaded rest tr1
  end.
Proof.
  cbn [write_chunks].
  destruct (file_write output_path chunk) as [e|]; [by erewrite bind_Raise|].
  erewrite bind_Return by reflexivity.
  erewrite bind_Return by reflexivity. cbv zeta.
  destruct (truthy file_size); [|by erewrite bind_Return by reflexivity].
  destruct (int (default [] file_size)) as [e|total].
  { erewrite bind_Raise; [done|]. by erewrite bind_Raise. }
  destruct (total =? 0)%Z eqn:Hz.
  { erewrite bind_Raise; [done|]. erewrite bind_Return by reflexivity.
    erewrite bind_Raise; [done|]. by rewrite true_divide_eq, Hz. }
  destruct (float_overflows _ total) eqn:Hov.
  { erewrite bind_Raise; [done|]. erewrite bind_Return by reflexivity.
    erewrite bind_Raise; [done|]. by rewrite true_divide_eq, Hz, Hov. }
  erewrite bind_Return; [done|]. erewrite bind_Return by reflexivity.
  erewrite bind_Return by (by rewrite true_divide_eq, Hz, Hov).
  apply print_ok. by printable_norm.
Qed.

(** Whatever the loop ends with, it has written a prefix of the chunks, in
    order; it does not exit; when it returns it has written them all and
    counted their bytes. *)
Lemma write_chunks_trace (output_path : str) file_size chunks downloaded tr o tr' :
  write_chunks output_path file_size downloaded chunks tr = (o, tr') →
  ∃ written,
    written `prefix_of` chunks ∧ tr' = tr ++ writes output_path written ∧
    (∀ c, o ≠ SysExit c) ∧
    ∀ n, o = Return n →
         written = chunks ∧ n = (downloaded + length (concat chunks))%nat.
Proof.
  revert downloaded tr o tr'.
  induction chunks as [|chunk rest IH]; intros downloaded tr o tr'.
  - intros [= <- <-]. exists []. split; [done|]. split; [by rewrite app_nil_r|].
    split; [done|]. intros n [= <-]. split; [done|]. simpl. lia.
  - rewrite write_chunks_cons. cbv zeta. intros Hrun.
    assert (Hstep : ∀ o tr',
      write_chunks output_path file_size (downloaded + length chunk) rest
        (tr ++ [EWrite output_path chunk]) = (o, tr') →
      ∃ written,
        written `prefix_of` chunk :: rest ∧ tr' = tr ++ writes output_path written ∧
        (∀ c, o ≠ SysExit c) ∧
        ∀ n, o = Return n →
             written = chunk :: rest ∧
             n = (downloaded + length (concat (chunk :: rest)))%nat).
    { intros o1 tr1 (written & Hpre & -> & Hne & Hret)%IH. exists (chunk :: written).
      split; [by apply prefix_cons|]. split; [by rewrite <- app_assoc|].
      split; [done|].
      intros n Hn. destruct (Hret n Hn) as [-> ->]. split; [done|].
      simpl. rewrite length_app. lia. }
    assert (Hstop : ∀ e written,
      written = [] ∨ written = [chunk] →
      (o, tr') = (Raise e, tr ++ writes output_path written) →
      ∃ written,
        written `prefix_of` chunk :: rest ∧ tr' = tr ++ writes output_path written ∧
        (∀ c, o ≠ SysExit c) ∧
        ∀ n, o = Return n →
             written = chunk :: rest ∧
             n = (downloaded + length (concat (chunk :: rest)))%nat).
    { intros e written Hw [= -> ->]. exists written. split.
      - destruct Hw as [-> | ->]; [apply prefix_nil|]. by apply prefix_cons, prefix_nil.
      - split; [done|]. split; [done|]. by intros n. }
    destruct (file_write output_path chunk) as [e|].
    { apply (Hstop e []); [by left|]. rewrite <- Hrun. by rewrite app_nil_r. }
    destruct (truthy file_size); [|by apply Hstep].
    destruct (int (default [] file_size)) as [e|total].
    { apply (Hstop e [chunk]); [by right|]. by rewrite <- Hrun. }
    destruct (total =? 0)%Z.
    { apply (Hstop ZeroDivisionError [chunk]); [by right|]. by rewrite <- Hrun. }
    destruct (float_overflows _ total); [|by apply Hstep].
    apply (Hstop OverflowError [chunk]); [by right|]. by rewrite <- Hrun.
Qed.

(** When every write succeeds and the computations on the header go
    through, the loop returns. *)
Lemma write_chunks_ok (output_path : str) file_size chunks downloaded size tr :
  Forall (λ chunk, file_write output_path chunk = None) chunks →
  content_length_ok file_size size →
  (downloaded + length (concat chunks) ≤ size)%nat →
  write_chunks output_path file_size downloaded chunks tr =
  (Return (downloaded + length (concat chunks))%nat,
   tr ++ writes output_path chunks).
Proof.
  intros Hw Hfs. revert downloaded tr.
  induction Hw as [|chunk rest Hchunk _ IH]; intros downloaded tr Hsize.
  - simpl. unfold mret, M_ret. f_equal; [f_equal; lia|by rewrite app_nil_r].
  - simpl in Hsize. rewrite length_app in Hsize.
    rewrite write_chunks_cons, Hchunk. cbv zeta.
    assert (Hnext : write_chunks output_path file_size (downloaded + length chunk) rest
                      (tr ++ [EWrite output_path chunk]) =
                    (Return (downloaded + length (concat (chunk :: rest)))%nat,
                     tr ++ writes output_path (chunk :: rest))).
    { rewrite IH by lia. simpl. rewrite length_app, <- app_assoc. f_equal. f_equal. lia. }
    destruct Hfs as [->|(total & Hint & Hnz & _ & Hov)]; [done|].
    destruct (truthy file_size); [|done].
    rewrite Hint. apply Z.eqb_neq in Hnz. rewrite Hnz.
    rewrite (float_overflows_le _ (Z.of_nat size)); [done|lia|done].
Qed.

Lemma download_caught (audio_url : str) tr (body : M bool) e tr' :
  (emit (EGetStream audio_url 30);; body) tr = (Raise e, tr') →
  (print (lit "[2/3] Downloading audio file...");;
   try_except_Exception (emit (EGetStream audio_url 30);; body)
     (λ e, print (lit "ERROR: Download failed: " ++ str_exn e);; mret false)) tr =
  handled e false tr'.
Proof.
  intros Hbody.
  erewrite bind_Return by (apply print_ok; by printable_norm).
  unfold try_except_Exception. rewrite Hbody. unfold handled.
  unfold mbind, M_bind. rewrite print_eq. printable_norm.
  by destruct (printable _).
Qed.

(** Lines 125-128. *)
Lemma header_step (file_size : option str) tr :
  ((if truthy file_size
    then size ← call (int (default [] file_size));
         true_divide size (1024 * 1024);;
         print (lit "      File size:  MB")
    else mret ()) : M unit) tr =
  match (if truthy file_size then int (default [] file_size) else inr 0%Z) with
  | inl e => (Raise e, tr)
  | inr size =>
      if float_overflows size (1024 * 1024) then (Raise OverflowError, tr)
      else (Return (), tr)
  end.
Proof.
  destruct (truthy file_size).
  - destruct (int (default [] file_size)) as [e|size]; [by erewrite bind_Raise|].
    erewrite bind_Return by reflexivity.
    destruct (float_overflows size (1024 * 1024)) eqn:Hov.
    + erewrite bind_Raise; [done|]. rewrite true_divide_eq, Hov. done.
    + erewrite bind_Return by (rewrite true_divide_eq, Hov; reflexivity).
      apply print_ok. by printable_norm.
  - by rewrite float_overflows_0.
Qed.

(** What [download_audio] does, step by step. *)
Lemma download_audio_eq audio_url output_path tr :
  download_audio audio_url output_path tr =
  let tr0 := tr ++ [EGetStream audio_url 30] in
  match requests_get_stream audio_url with
  | inl e => handled e false tr0
  | inr audio_response =>
      let file_size := content_length audio_response in
      if ((400 <=? stream_status_code audio_response) &&
          (stream_status_code audio_response <? 600))%Z
      then handled RequestException false tr0
      else
        match (if truthy file_size then int (default [] file_size)
               else inr 0%Z) with
        | inl e => handled e false tr0
        | inr size =>
            if float_overflows size (1024 * 1024) then (Return false, tr0)
            else
            match open_wb output_path with
            | Some e => handled e false tr0
            | None =>
                match write_chunks output_path file_size 0
                        (iter_content audio_response)
                        (tr0 ++ [EOpen output_path]) with
                | (Return _, tr1) =>
                    match iter_error audio_response with
                    | Some e => handled e false tr1
                    | None => (Return (printable output_path), tr1)
                    end
                | (Raise e, tr1) => handled e false tr1
                | (SysExit c, tr1) => (SysExit c, tr1)
                end
            end
        end
  end.
Proof.
  cbv zeta. unfold download_audio.
  destruct (requests_get_stream audio_url) as [e|audio_response] eqn:Hget.
  { apply download_caught. erewrite bind_Return by reflexivity.
    by erewrite bind_Raise. }
  destruct (_ && _) eqn:Hst.
  { apply download_caught. erewrite bind_Return by reflexivity.
    erewrite bind_Return by reflexivity.
    erewrite bind_Raise; [done|]. by rewrite raise_for_status_eq, Hst. }
  pose proof (header_step (content_length audio_response)
                (tr ++ [EGetStream audio_url 30])) as Hhead.
  destruct (if truthy (content_length audio_response)
            then int (default [] (content_length audio_response))
            else inr 0%Z) as [e|size].
  { apply download_caught. erewrite bind_Return by reflexivity.
    erewrite bind_Return by reflexivity.
    erewrite bind_Return by (by rewrite raise_for_status_eq, Hst).
    cbv zeta. erewrite bind_Raise; [done|exact Hhead]. }
  destruct (float_overflows size (1024 * 1024)).
  { rewrite <- (handled_builtin OverflowError false) by done.
    apply download_caught. erewrite bind_Return by reflexivity.
    erewrite bind_Return by reflexivity.
    erewrite bind_Return by (by rewrite raise_for_status_eq, Hst).
    cbv zeta. erewrite bind_Raise; [done|exact Hhead]. }
  destruct (open_wb output_path) as [e|] eqn:Hopen.
  { apply download_caught. erewrite bind_Return by reflexivity.
    erewrite bind_Return by reflexivity.
    erewrite bind_Return by (by rewrite raise_for_status_eq, Hst).
    cbv zeta. erewrite bind_Return by exact Hhead.
    by erewrite bind_Raise. }
  destruct (write_chunks _ _ _ _ _) as [[n|e|c] tr1] eqn:Hw.
  - destruct (iter_error audio_response) as [e|] eqn:Herr.
    { apply download_caught. erewrite bind_Return by reflexivity.
      erewrite bind_Return by reflexivity.
      erewrite bind_Return by (by rewrite raise_for_status_eq, Hst).
      cbv zeta. erewrite bind_Return by exact Hhead.
      erewrite bind_Return by reflexivity.
      erewrite bind_Return by reflexivity.
      erewrite bind_Return by exact Hw.
      erewrite bind_Raise; [done|]. by rewrite Herr. }
    assert (Hnl : ((if truthy (content_length audio_response)
                    then print [] else mret ()) : M unit) tr1 = (Return (), tr1)).
    { by destruct (truthy _). }
    destruct (printable output_path) eqn:Hpath.
    + erewrite bind_Return by (apply print_ok; by printable_norm).
      unfold try_except_Exception.
      erewrite bind_Return by reflexivity.
      erewrite bind_Return by reflexivity.
      erewrite bind_Return by (by rewrite raise_for_status_eq, Hst).
      cbv zeta. erewrite bind_Return by exact Hhead.
      erewrite bind_Return by reflexivity.
      erewrite bind_Return by reflexivity.
      erewrite bind_Return by exact Hw.
      erewrite bind_Return by (by rewrite Herr).
      erewrite bind_Return by exact Hnl.
      erewrite bind_Return by (apply print_ok; printable_norm; exact Hpath).
      done.
    + rewrite <- (handled_builtin UnicodeEncodeError false) by done.
      apply download_caught. erewrite bind_Return by reflexivity.
      erewrite bind_Return by reflexivity.
      erewrite bind_Return by (by rewrite raise_for_status_eq, Hst).
      cbv zeta. erewrite bind_Return by exact Hhead.
      erewrite bind_Return by reflexivity.
      erewrite bind_Return by reflexivity.
      erewrite bind_Return by exact Hw.
      erewrite bind_Return by (by rewrite Herr).
      erewrite bind_Return by exact Hnl.
      erewrite bind_Raise; [done|]. apply print_fails. printable_norm. exact Hpath.
  - apply download_caught. erewrite bind_Return by reflexivity.
    erewrite bind_Return by reflexivity.
    erewrite bind_Return by (by rewrite raise_for_status_eq, Hst).
    cbv zeta. erewrite bind_Return by exact Hhead.
    erewrite bind_Return by reflexivity.
    erewrite bind_Return by reflexivity.
    erewrite bind_Raise; [done|exact Hw].
  - apply write_chunks_trace in Hw as (? & _ & _ & Hne & _). by destruct (Hne c).
Qed.

Lemma content_writes (path : str) content chunks :
  foldl (content_step path) content (writes path chunks) =
  content ++ concat chunks.
Proof.
  revert content. induction chunks as [|chunk rest IH]; intros content; simpl.
  - by rewrite app_nil_r.
  - rewrite bool_decide_eq_true_2 by done. unfold writes in IH.
    by rewrite IH, <- app_assoc.
Qed.

Lemma file_content_opened (path : str) tr chunks :
  file_content path (tr ++ [EOpen path] ++ writes path chunks) = concat chunks.
Proof.
  unfold file_content. rewrite !foldl_app. simpl.
  rewrite bool_decide_eq_true_2 by done. by rewrite content_writes.
Qed.

Lemma files_created_writes (path : str) chunks : files_created (writes path chunks) = [].
Proof. by induction chunks. Qed.

Lemma files_created_app tr1 tr2 :
  files_created (tr1 ++ tr2) = files_created tr1 ++ files_created tr2.
Proof. unfold files_created. apply omap_app. Qed.

Lemma handled_trace {A} e (a : A) tr o tr' : handled e a tr = (o, tr') → tr' = tr.
Proof. unfold handled. destruct (printable _); by intros [= _ <-]. Qed.

Lemma handled_cases {A} e (a : A) tr :
  handled e a tr = (Return a, tr) ∨
  (printable (str_exn e) = false ∧ handled e a tr = (Raise UnicodeEncodeError, tr)).
Proof. unfold handled. destruct (printable _); [by left|by right]. Qed.

(** *** The orchestrator *)

#[local] Arguments is_valid_udio_url : simpl never.
#[local] Arguments extract_audio_url : simpl never.
#[local] Arguments download_audio : simpl never.
#[local] Arguments strip : simpl never.
#[local] Arguments lit : simpl never.
#[local] Arguments truthy : simpl never.

Lemma printable_doc : printable doc = true.
Proof. by apply printable_ascii. Qed.

Lemma run_main_few_arguments (argv : list str) :
  (length argv < 2)%nat → run_main argv = (ExitCode 1, []).
Proof.
  intros Hlen. unfold run_main, main.
  apply Nat.ltb_lt in Hlen. rewrite Hlen.
  erewrite bind_Return by (apply print_ok, printable_doc).
  erewrite bind_Return by (apply print_ok; by printable_norm). done.
Qed.

(** Lines 167-170. *)
Lemma makedirs_step (output_dir : str) :
  ((if negb (os_path_exists output_dir)
    then call (from_option inl (inr ()) (os_makedirs output_dir));;
         emit (EMakedirs output_dir);;
         print (lit "Created output directory: " ++ output_dir)
    else mret ()) : M unit) [] =
  if os_path_exists output_dir then (Return (), [])
  else match os_makedirs output_dir with
       | Some e => (Raise e, [])
       | None =>
           if printable output_dir then (Return (), [EMakedirs output_dir])
           else (Raise UnicodeEncodeError, [EMakedirs output_dir])
       end.
Proof.
  destruct (os_path_exists output_dir); [done|]. cbv [negb].
  destruct (os_makedirs output_dir) as [e|]; [by erewrite bind_Raise|].
  erewrite bind_Return by reflexivity.
  erewrite bind_Return by reflexivity.
  rewrite print_eq. printable_norm. done.
Qed.

(** Lines 189-190. *)
Lemma report_step (output_path : str) tr :
  (print ([10; check_mark] ++ lit " Download complete!");;
   absolute ← call (os_path_abspath output_path);
   print (lit "  File: " ++ absolute)) tr =
  if encodable check_mark
  then match os_path_abspath output_path with
       | inl e => (Raise e, tr)
       | inr absolute =>
           if printable absolute then (Return (), tr)
           else (Raise UnicodeEncodeError, tr)
       end
  else (Raise UnicodeEncodeError, tr).
Proof.
  destruct (encodable check_mark) eqn:Hcheck.
  - erewrite bind_Return by (apply print_ok; printable_norm; exact Hcheck).
    destruct (os_path_abspath output_path) as [e|absolute]; [by erewrite bind_Raise|].
    erewrite bind_Return by reflexivity.
    rewrite print_eq. printable_norm. done.
  - erewrite bind_Raise; [done|]. apply print_fails. printable_norm. exact Hcheck.
Qed.

(** What a run with a URL argument does, step by step. *)
Lemma run_main_eq (prog arg : str) (rest : list str) :
  let argv := prog :: arg :: rest in
  let udio_url := strip arg in
  let output_dir := default [46] (argv !! 2%nat) in
  run_main argv =
  match urlparse udio_url with
  | inl _ => (ExitCode 1, [])
  | inr parsed =>
      if negb (bool_decide (netloc parsed = lit "www.udio.com") &&
               contains (lit "/songs/") (path parsed))
      then (ExitCode 1, [])
      else
        match (if os_path_exists output_dir then (Return (), [])
               else match os_makedirs output_dir with
                    | Some e => (Raise e, [])
                    | None =>
                        if printable output_dir
                        then (Return (), [EMakedirs output_dir])
                        else (Raise UnicodeEncodeError, [EMakedirs output_dir])
                    end) with
        | (Raise e, tr0) => (Traceback e, tr0)
        | (SysExit c, tr0) => (ExitCode c, tr0)
        | (Return _, tr0) =>
            match extract_audio_url udio_url tr0 with
            | (Raise e, tr1) => (Traceback e, tr1)
            | (SysExit c, tr1) => (ExitCode c, tr1)
            | (Return (audio_url, song_title), tr1) =>
                if negb (truthy audio_url) then (ExitCode 1, tr1) else
                let output_path :=
                  os_path_join output_dir
                    (default (lit "None") song_title ++ lit ".mp3") in
                match download_audio (default [] audio_url) output_path tr1 with
                | (Raise e, tr2) => (Traceback e, tr2)
                | (SysExit c, tr2) => (ExitCode c, tr2)
                | (Return success, tr2) =>
                    if negb success then (ExitCode 1, tr2) else
                    if encodable check_mark
                    then match os_path_abspath output_path with
                         | inl e => (Traceback e, tr2)
                         | inr absolute =>
                             if printable absolute then (ExitCode 0, tr2)
                             else (Traceback UnicodeEncodeError, tr2)
                         end
                    else (Traceback UnicodeEncodeError, tr2)
                end
            end
        end
  end.
Proof.
  cbv zeta. set (output_dir := default [46] ((prog :: arg :: rest) !! 2%nat)).
  unfold run_main, main.
  change (length (prog :: arg :: rest) <? 2)%nat with false. cbv iota.
  erewrite bind_Return by reflexivity.
  erewrite (bind_Return _ _ _ output_dir) by (subst output_dir; by destruct rest).
  erewrite bind_Return by apply is_valid_udio_url_eq.
  destruct (urlparse (strip arg)) as [e|parsed].
  { cbv [negb].
    erewrite bind_Return by (apply print_ok; by printable_norm).
    erewrite bind_Return by (apply print_ok; by printable_norm). done. }
  destruct (negb _).
  { erewrite bind_Return by (apply print_ok; by printable_norm).
    erewrite bind_Return by (apply print_ok; by printable_norm). done. }
  pose proof (makedirs_step output_dir) as Hmk.
  destruct (if os_path_exists output_dir then _ else _) as [[[]|e|c] tr0].
  2: { by erewrite bind_Raise by exact Hmk. }
  2: { by erewrite bind_SysExit by exact Hmk. }
  erewrite bind_Return by exact Hmk.
  destruct (extract_audio_url (strip arg) tr0) as [[[audio_url song_title]|e|c] tr1] eqn:Hex.
  2: { by erewrite bind_Raise by exact Hex. }
  2: { by erewrite bind_SysExit by exact Hex. }
  erewrite bind_Return by exact Hex. cbn [fst snd].
  destruct (negb (truthy audio_url)).
  { erewrite bind_Return by (apply print_ok; by printable_norm). done. }
  cbv zeta.
  destruct (download_audio _ _ tr1) as [[success|e|c] tr2] eqn:Hdl.
  2: { by erewrite bind_Raise by exact Hdl. }
  2: { by erewrite bind_SysExit by exact Hdl. }
  erewrite bind_Return by exact Hdl.
  destruct (negb success).
  { erewrite bind_Return by (apply print_ok; by printable_norm). done. }
  rewrite report_step.
  destruct (encodable check_mark); [|done].
  destruct (os_path_abspath _) as [e|absolute]; [done|].
  by destruct (printable absolute).
Qed.

(** *** Runs, case by case *)

(** A download that returns true has opened the destination once and
    written every chunk of the response. *)
Lemma download_true_inv audio_url output_path tr tr' :
  download_audio audio_url output_path tr = (Return true, tr') →
  ∃ audio_response,
    requests_get_stream audio_url = inr audio_response ∧
    ((400 <=? stream_status_code audio_response) &&
     (stream_status_code audio_response <? 600))%Z = false ∧
    iter_error audio_response = None ∧
    printable output_path = true ∧
    tr' = (tr ++ [EGetStream audio_url 30]) ++ [EOpen output_path] ++
          writes output_path (iter_content audio_response).
Proof.
  rewrite download_audio_eq. cbv zeta.
  assert (Hh : ∀ e tr0, handled e false tr0 ≠ (Return true, tr')).
  { intros e tr0. by destruct (handled_cases e false tr0) as [->|[_ ->]]. }
  destruct (requests_get_stream audio_url) as [e|audio_response] eqn:Hget;
    [by intros ?%Hh|].
  destruct (_ && _) eqn:Hst; [by intros ?%Hh|].
  destruct (if truthy _ then _ else _) as [e|total]; [by intros ?%Hh|].
  destruct (float_overflows total (1024 * 1024)); [done|].
  destruct (open_wb output_path); [by intros ?%Hh|].
  destruct (write_chunks _ _ _ _ _) as [[n|e|c] tr1] eqn:Hw; [|by intros ?%Hh|done].
  destruct (iter_error audio_response) eqn:Herr; [by intros ?%Hh|].
  intros [= Hpath <-].
  apply write_chunks_trace in Hw as (written & _ & -> & _ & Hall).
  destruct (Hall n eq_refl) as [-> _].
  exists audio_response. do 4 (split; [done|]). by rewrite <- !app_assoc.
Qed.

(** Whatever a download ends with, it has issued its one request and then
    touched nothing but the destination; and it ends by returning, or with
    the [UnicodeEncodeError] of the print in its handler. *)
Lemma download_audio_cases audio_url output_path tr o tr' :
  download_audio audio_url output_path tr = (o, tr') →
  ∃ effects,
    tr' = tr ++ [EGetStream audio_url 30] ++ effects ∧
    (effects = [] ∨
     ∃ audio_response written,
       requests_get_stream audio_url = inr audio_response ∧
       written `prefix_of` iter_content audio_response ∧
       effects = EOpen output_path :: writes output_path written) ∧
    ((∃ success, o = Return success) ∨
     (o = Raise UnicodeEncodeError ∧ ∃ e, printable (str_exn e) = false)).
Proof.
  rewrite download_audio_eq. cbv zeta.
  remember (requests_get_stream audio_url) as r eqn:Hstream.
  assert (Hout : ∀ e tr0,
    handled e false tr0 = (o, tr') →
    tr' = tr0 ∧
    ((∃ success, o = Return success) ∨
     (o = Raise UnicodeEncodeError ∧ ∃ e, printable (str_exn e) = false))).
  { intros e tr0 Hh. split; [by eapply handled_trace|].
    destruct (handled_cases e false tr0) as [Hr|[Htext Hr]];
      rewrite Hr in Hh; injection Hh as <- _; eauto. }
  assert (Hnone : ∀ e,
    handled e false (tr ++ [EGetStream audio_url 30]) = (o, tr') →
    ∃ effects,
      tr' = tr ++ [EGetStream audio_url 30] ++ effects ∧
      (effects = [] ∨
       ∃ audio_response written,
         r = inr audio_response ∧
         written `prefix_of` iter_content audio_response ∧
         effects = EOpen output_path :: writes output_path written) ∧
      ((∃ success, o = Return success) ∨
       (o = Raise UnicodeEncodeError ∧ ∃ e, printable (str_exn e) = false))).
  { intros e [-> Ho]%Hout. exists []. split; [by rewrite app_nil_r|]. split; [by left|done]. }
  destruct r as [e|audio_response]; [apply Hnone|].
  destruct (_ && _); [apply Hnone|].
  destruct (if truthy _ then _ else _); [apply Hnone|].
  destruct (float_overflows _ _).
  { intros [= <- <-]. exists []. split; [by rewrite app_nil_r|]. split; [by left|eauto]. }
  destruct (open_wb output_path); [apply Hnone|].
  destruct (write_chunks _ _ _ _ _) as [[n|e|c] tr1] eqn:Hrun;
    apply write_chunks_trace in Hrun as (written & Hpre & -> & Hne & _);
    [| |by destruct (Hne c)].
  - assert (Hopened : ∀ o',
      ((∃ success, o' = Return success) ∨
       (o' = Raise UnicodeEncodeError ∧ ∃ e, printable (str_exn e) = false)) →
      (o', ((tr ++ [EGetStream audio_url 30]) ++ [EOpen output_path]) ++
           writes output_path written) = (o, tr') →
      ∃ effects,
        tr' = tr ++ [EGetStream audio_url 30] ++ effects ∧
        (effects = [] ∨
         ∃ audio_response0 written,
           (inr audio_response : exn + StreamResponse) = inr audio_response0 ∧
           written `prefix_of` iter_content audio_response0 ∧
           effects = EOpen output_path :: writes output_path written) ∧
        ((∃ success, o = Return success) ∨
         (o = Raise UnicodeEncodeError ∧ ∃ e, printable (str_exn e) = false))).
    { intros o' Ho' [= <- <-].
      exists (EOpen output_path :: writes output_path written).
      split; [by rewrite <- !app_assoc|]. split; [|done].
      right. by exists audio_response, written. }
    destruct (iter_error audio_response) as [e|].
    + intros Hh. destruct (Hout _ _ Hh) as [-> Ho].
      eapply Hopened; [exact Ho|done].
    + apply Hopened. eauto.
  - intros Hh. destruct (Hout _ _ Hh) as [-> Ho].
    exists (EOpen output_path :: writes output_path written).
    split; [by rewrite <- !app_assoc|]. split; [|done].
    right. by exists audio_response, written.
Qed.

Lemma files_created_probes (urls : list str) : files_created (probes urls) = [].
Proof. by induction urls. Qed.

(** The function touches no file. *)
Lemma extract_trace url tr o tr' :
  extract_audio_url url tr = (o, tr') →
  files_created tr' = files_created tr ∧
  ∀ p chunk, EWrite p chunk ∈ tr' → EWrite p chunk ∈ tr.
Proof.
  intros Hex.
  assert (tr' = tr ∨ ∃ probed, tr' = tr ++ [EGet url 10] ++ probes probed)
    as [->|[probed ->]]; [|done|].
  { destruct (extract_cases url tr)
      as [[_ Hr]|[_ [(e & _ & Hr)|[(response & _ & _ & Hr)|
          (response & probed & _ & _ & [Hr|(a & t & _ & _ & Hr)])]]]];
      rewrite Hr in Hex.
    - injection Hex as _ <-. by left.
    - apply handled_trace in Hex as ->. right. by exists [].
    - injection Hex as _ <-. right. by exists [].
    - injection Hex as _ <-. right. by exists probed.
    - injection Hex as _ <-. right. by exists probed. }
  split.
  - rewrite !files_created_app, files_created_probes. simpl. by rewrite app_nil_r.
  - intros p chunk [?|[Hin|Hin]%elem_of_app]%elem_of_app; [done| |].
    + by apply list_elem_of_singleton in Hin.
    + unfold probes in Hin. by apply list_elem_of_fmap in Hin as (? & ? & _).
Qed.

(** How the function can end. *)
Lemma extract_outcome url tr o tr' :
  extract_audio_url url tr = (o, tr') →
  (o = Raise UnicodeEncodeError ∧ ∃ s, printable s = false) ∨
  o = Return (None, None) ∨
  ∃ audio_url song_title response,
    o = Return (Some audio_url, Some song_title) ∧
    fetched url response ∧
    audio_url ∈ Re.findall mp3_pattern (text response) ∧
    song_title_of (text response) [] = (Return song_title, []).
Proof.
  intros Hex.
  destruct (extract_cases url tr)
    as [[Hurl Hr]|[_ [(e & _ & Hr)|[(response & _ & _ & Hr)|
        (response & probed & Hf & _ & [Hr|(a & t & Hin & Ht & Hr)])]]]];
    rewrite Hr in Hex.
  - injection Hex as <- _. left. eauto.
  - destruct (handled_cases e (@None str, @None str) (tr ++ [EGet url 10]))
      as [Hh|[Htext Hh]]; rewrite Hh in Hex; injection Hex as <- _.
    + by right; left.
    + left. eauto.
  - injection Hex as <- _. by right; left.
  - injection Hex as <- _. by right; left.
  - injection Hex as <- _. right. right. by exists a, t, response.
Qed.

(** Every run of [main] with a URL argument that the validator accepts is
    one of these: the output directory cannot be made, or its name cannot
    be printed; the extraction raises, or returns no link; the download
    raises, or returns false; the download returns true, after which the
    two last prints go through, or one of them or [os.path.abspath]
    raises. *)
Lemma run_main_cases (prog arg : str) (rest : list str) :
  let argv := prog :: arg :: rest in
  let udio_url := strip arg in
  let output_dir := default [46] (argv !! 2%nat) in
  is_valid_udio_url udio_url [] = (Return true, []) →
  (∃ e, os_path_exists output_dir = false ∧ os_makedirs output_dir = Some e ∧
        run_main argv = (Traceback e, [])) ∨
  (os_path_exists output_dir = false ∧ os_makedirs output_dir = None ∧
   printable output_dir = false ∧
   run_main argv = (Traceback UnicodeEncodeError, [EMakedirs output_dir])) ∨
  ∃ tr0 o1 tr1,
    (tr0 = [] ∨ tr0 = [EMakedirs output_dir]) ∧
    extract_audio_url udio_url tr0 = (o1, tr1) ∧
    ((o1 = Raise UnicodeEncodeError ∧
      run_main argv = (Traceback UnicodeEncodeError, tr1)) ∨
     (o1 = Return (None, None) ∧ run_main argv = (ExitCode 1, tr1)) ∨
     ∃ audio_url song_title o2 tr2,
       o1 = Return (Some audio_url, Some song_title) ∧
       download_audio audio_url
         (os_path_join output_dir (song_title ++ lit ".mp3")) tr1 = (o2, tr2) ∧
       ((o2 = Raise UnicodeEncodeError ∧
         run_main argv = (Traceback UnicodeEncodeError, tr2)) ∨
        (o2 = Return false ∧ run_main argv = (ExitCode 1, tr2)) ∨
        (o2 = Return true ∧
         (run_main argv = (ExitCode 0, tr2) ∨
          (∃ s, printable s = false ∧
                run_main argv = (Traceback UnicodeEncodeError, tr2)) ∨
          ∃ e, os_path_abspath
                 (os_path_join output_dir (song_title ++ lit ".mp3")) = inl e ∧
               run_main argv = (Traceback e, tr2))))).
Proof.
  cbv zeta. rewrite is_valid_udio_url_eq, run_main_eq. cbv zeta.
  set (output_dir := default [46] ((prog :: arg :: rest) !! 2%nat)).
  destruct (urlparse (strip arg)) as [e|parsed]; [done|].
  intros [= ->]. cbv [negb].
  assert (Hnames : ∀ t : str, default (lit "None") (Some t) = t) by done.
  destruct (os_path_exists output_dir) eqn:Hexists;
    [|destruct (os_makedirs output_dir) as [e|] eqn:Hmk; [left; by exists e|];
      destruct (printable output_dir) eqn:Hdir; [|by right; left]];
    right; right;
    match goal with
    | |- context [extract_audio_url (strip arg) ?tr] =>
        exists tr; destruct (extract_audio_url (strip arg) tr) as [o1 tr1] eqn:Hex
    end;
    exists o1, tr1; (split; [by auto|]); (split; [done|]);
    (destruct (extract_outcome _ _ _ _ Hex)
       as [[-> _]|[->|(a & t & response & -> & _ & Hin & _)]];
     [by left|by right; left|]);
    right; right;
    assert (a ≠ []) as Ha by (by eapply mp3_url_nonempty);
    (destruct a as [|c0 a]; [done|]); cbn [truthy negb default];
    rewrite ?Hnames;
    match goal with
    | |- context [download_audio ?u ?p ?t1] =>
        destruct (download_audio u p t1) as [o2 tr2] eqn:Hdl
    end;
    eexists _, t, o2, tr2; do 2 (split; [done|]);
    (destruct (download_audio_cases _ _ _ _ _ Hdl)
       as (_ & _ & _ & [[success ->]|[-> _]]); [|by left]);
    right; (destruct success; [right|by left]); (split; [done|]); cbv [negb];
    (destruct (encodable check_mark) eqn:Hcheck;
     [|right; left; exists [check_mark]; split;
       [by rewrite printable_cons, Hcheck|done]]);
    (destruct (os_path_abspath _) as [e|absolute] eqn:Habs; [right; right; eauto|]);
    (destruct (printable absolute) eqn:Hp; [by left|right; left; eauto]).
Qed.

Lemma run_main_invalid (prog arg : str) (rest : list str) :
  is_valid_udio_url (strip arg) [] = (Return false, []) →
  run_main (prog :: arg :: rest) = (ExitCode 1, []).
Proof.
  rewrite is_valid_udio_url_eq, run_main_eq. cbv zeta.
  destruct (urlparse (strip arg)); [done|]. by intros [= ->].
Qed.

Lemma is_valid_udio_url_cases url :
  is_valid_udio_url url [] = (Return true, []) ∨
  is_valid_udio_url url [] = (Return false, []).
Proof.
  rewrite is_valid_udio_url_eq. destruct (urlparse url); [by right|].
  destruct (_ && _); eauto.
Qed.

End ProgramFacts.

(** * Properties of the specification *)

(** *** Title *)

(** C1, as amended. On a fetched page with at least one asset link, when
    the standard output can encode the URL, the two marks, the texts of
    the probe errors and the title text of the page, the function returns
    a link and a title. Every character of the title is a word character
    (the underscores that stand for spaces are), a hyphen or whitespace
    other than the space. The title is the default name when the page has
    no title element, and when the title text has no separator. Otherwise
    it is the song-name segment, stripped and sanitized: the second piece
    of the title text cut at [ - ], up to its first [ | ]. So the title can
    be empty only when the page has a title element with the separator. *)
Theorem extract_title_shape {U : UnicodeDB} {W : World} url tr response :
  fetched url response →
  Re.findall mp3_pattern (text response) ≠ [] →
  printable url = true → probe_prints → title_prints response →
  ∃ audio_url song_title tr',
    extract_audio_url url tr = (Return (Some audio_url, Some song_title), tr') ∧
    Forall title_char song_title ∧
    (title_element (text response) = None → song_title = lit "udio_song") ∧
    (∀ title_text,
       title_element (text response) = Some title_text →
       contains (lit " - ") title_text = false → song_title = lit "udio_song") ∧
    (∀ title_text,
       title_element (text response) = Some title_text →
       contains (lit " - ") title_text = true →
       ∃ part name,
         split (lit " - ") title_text !! 1%nat = Some part ∧
         split (lit " | ") part !! 0%nat = Some name ∧
         song_title = sanitize (strip name)) ∧
    (song_title = [] →
       ∃ title_text, title_element (text response) = Some title_text ∧
                     contains (lit " - ") title_text = true).
Proof.
  intros Hf Hlinks Hurl Hp Htp.
  destruct (extract_fetched url tr response Hurl Hp Htp Hf Hlinks)
    as (first & rest & found & tr' & t & _ & _ & Ht & Hex).
  destruct (song_title_of_spec (text response) [])
    as (t' & Ht' & Hch & Hnone & Hplain & Hnil).
  assert (t' = t) as -> by congruence.
  exists (default first found), t, tr'. do 4 (split; [done|]). split; [|done].
  intros title_text Htitle Hsep.
  destruct (song_title_of_eq (text response) []) as (t'' & Ht'' & Hcase).
  assert (t'' = t) as -> by congruence.
  rewrite Htitle, Hsep in Hcase.
  destruct Hcase as (part & rest' & a & name & Hsplit & Hname & ->).
  exists part, name. by rewrite Hsplit.
Qed.

Lemma extract_title_shape_witness :
  (∃ audio_url tr',
     extract_audio_url (U := ascii_db) (W := great_hit_world all_work) song_url [] =
     (Return (Some audio_url,
              Some (sanitize (U := ascii_db) (strip (U := ascii_db) (lit "Great Hit")))),
      tr')) ∧
  (∃ audio_url tr',
     extract_audio_url (U := ascii_db) (W := no_title_world) song_url [] =
     (Return (Some audio_url, Some (lit "udio_song")), tr')) ∧
  (∃ audio_url tr',
     extract_audio_url (U := ascii_db) (W := plain_title_world) song_url [] =
     (Return (Some audio_url, Some (lit "udio_song")), tr')) ∧
  (∃ audio_url tr',
     extract_audio_url (U := ascii_db) (W := punctuation_world) song_url [] =
     (Return (Some audio_url, Some []), tr') ∧
     ∃ title_text,
       title_element (text punctuation_response) = Some title_text ∧
       contains (lit " - ") title_text = true).
Proof.
  assert (Hp : ∀ page stream,
            probe_prints (W := sample_world page all_work stream [[46]])).
  { intros page stream. split; [reflexivity|]. split; [reflexivity|]. by intros c e. }
  split; [|split; [|split]].
  - destruct (extract_title_shape (U := ascii_db) (W := great_hit_world all_work)
                song_url [] great_hit_response)
      as (audio_url & song_title & tr' & Hex & _ & _ & _ & Hsong & _).
    + split; reflexivity.
    + vm_compute. discriminate.
    + reflexivity.
    + apply Hp.
    + intros title_text [= <-]. reflexivity.
    + destruct (Hsong (lit "My Song - Great Hit | Udio") eq_refl eq_refl)
        as (part & name & Hpart & Hname & ->).
      vm_compute in Hpart. injection Hpart as <-.
      vm_compute in Hname. injection Hname as <-.
      exists audio_url, tr'. exact Hex.
  - destruct (extract_title_shape (U := ascii_db) (W := no_title_world)
                song_url [] no_title_response)
      as (audio_url & song_title & tr' & Hex & _ & Hnone & _).
    + split; reflexivity.
    + vm_compute. discriminate.
    + reflexivity.
    + apply Hp.
    + intros title_text [=].
    + rewrite (Hnone eq_refl) in Hex. exists audio_url, tr'. exact Hex.
  - destruct (extract_title_shape (U := ascii_db) (W := plain_title_world)
                song_url [] plain_title_response)
      as (audio_url & song_title & tr' & Hex & _ & _ & Hplain & _).
    + split; reflexivity.
    + vm_compute. discriminate.
    + reflexivity.
    + apply Hp.
    + intros title_text [= <-]. reflexivity.
    + rewrite (Hplain (lit "Great Hit") eq_refl eq_refl) in Hex.
      exists audio_url, tr'. exact Hex.
  - destruct (extract_title_shape (U := ascii_db) (W := punctuation_world)
                song_url [] punctuation_response)
      as (audio_url & song_title & tr' & Hex & _ & _ & _ & Hsong & Hnil).
    + split; reflexivity.
    + vm_compute. discriminate.
    + reflexivity.
    + apply Hp.
    + intros title_text [= <-]. reflexivity.
    + destruct (Hsong (lit "Artist - !!! | Udio") eq_refl eq_refl)
        as (part & name & Hpart & Hname & ->).
      vm_compute in Hpart. injection Hpart as <-.
      vm_compute in Hname. injection Hname as <-.
      exists audio_url, tr'. split; [exact Hex|]. apply Hnil. reflexivity.
Defined.

(** C1, as stated, fails: the song name [!!!] is sanitized to the empty
    string, and the empty string is returned as the title, not the default
    name; a tab inside a song name stays in the title; and on a standard
    output that cannot encode the mark of line 72 the page gives no title
    at all. *)
Lemma extract_title_empty :
  extract_audio_url (U := ascii_db) (W := punctuation_world) song_url [] =
    (Return (Some (asset "a.mp3"), Some []),
     [EGet song_url 10; EHead (asset "a.mp3") 5]) ∧
  extract_audio_url (U := ascii_db) (W := tab_world) song_url [] =
    (Return (Some (asset "a.mp3"), Some (lit "one" ++ [9] ++ lit "two")),
     [EGet song_url 10; EHead (asset "a.mp3") 5]) ∧
  extract_audio_url (U := ascii_db) (W := latin1_world great_hit_response all_work)
    song_url [] =
    (Return (None, None), [EGet song_url 10; EHead (asset "a.mp3") 5]).
Proof. repeat split; vm_compute; reflexivity. Qed.

(** *** No exception escapes *)

(** C2 fails on the code: with the empty string as output directory,
    [os.makedirs] raises and nothing in [main] catches it. *)
Theorem main_makedirs_traceback :
  run_main (U := ascii_db) (W := great_hit_world all_work)
    [lit "udio_downloader.py"; song_url; []] =
  (Traceback OSError, []).
Proof. vm_compute. reflexivity. Qed.

(** *** Probing *)

(** C3, as amended. When the standard output can encode the two marks
    and the texts of the probe errors, the candidates are probed in order
    up to the first one whose probe returns with status 200; that one is
    selected, it is none of the candidates after it, and none of those is
    probed. *)
Theorem first_working_candidate_selected {U : UnicodeDB} {W : World}
    (before : list str) (candidate : str) (after : list str) :
  probe_prints →
  Forall (λ url, probe_ok url = false) before →
  probe_ok candidate = true →
  (∀ tr, probe_loop None (before ++ candidate :: after) tr =
         (Return (Some candidate), tr ++ probes (before ++ [candidate]))) ∧
  (∀ url response tr,
     printable url = true → title_prints response →
     fetched url response →
     dedup (Re.findall mp3_pattern (text response)) = before ++ candidate :: after →
     (candidate ∉ after) ∧
     ∃ song_title,
       extract_audio_url url tr =
       (Return (Some candidate, Some song_title),
        tr ++ [EGet url 10] ++ probes (before ++ [candidate]))).
Proof.
  intros Hp Hbefore Hok. split; [intros tr; by apply probe_loop_first_ok|].
  intros url response tr Hurl Htp Hf Hd. split.
  { assert (Hnd := dedup_loop_NoDup (Re.findall mp3_pattern (text response)) ∅).
    fold (dedup (Re.findall mp3_pattern (text response))) in Hnd.
    rewrite Hd in Hnd. apply NoDup_app in Hnd as (_ & _ & Hnd).
    by apply NoDup_cons in Hnd as [? _]. }
  assert (Hlinks : Re.findall mp3_pattern (text response) ≠ []).
  { intros Hnil. rewrite Hnil in Hd. by destruct before. }
  destruct (extract_fetched url tr response Hurl Hp Htp Hf Hlinks)
    as (first & rest & found & tr' & t & Hd' & Hprobe & _ & Hex).
  rewrite <- Hd', Hd, probe_loop_first_ok in Hprobe by done.
  injection Hprobe as <- <-. exists t. by rewrite Hex, <- app_assoc.
Qed.

Lemma first_working_candidate_selected_witness :
  probe_loop (W := three_links_world second_works) None
    ([asset "a.mp3"] ++ asset "b.mp3" :: [asset "c.mp3"]) [] =
    (Return (Some (asset "b.mp3")),
     [] ++ probes ([asset "a.mp3"] ++ [asset "b.mp3"])) ∧
  (asset "b.mp3" ∉ [asset "c.mp3"]) ∧
  ∃ song_title,
    extract_audio_url (U := ascii_db) (W := three_links_world second_works)
      song_url [] =
    (Return (Some (asset "b.mp3"), Some song_title),
     [] ++ [EGet song_url 10] ++ probes ([asset "a.mp3"] ++ [asset "b.mp3"])).
Proof.
  destruct (first_working_candidate_selected (U := ascii_db)
              (W := three_links_world second_works)
              [asset "a.mp3"] (asset "b.mp3") [asset "c.mp3"])
    as [Hloop Hextract].
  - split; [reflexivity|]. split; [reflexivity|]. intros c [] _; reflexivity.
  - repeat constructor.
  - reflexivity.
  - split; [apply Hloop|].
    apply (Hextract song_url three_links_response []).
    + reflexivity.
    + intros title_text [= <-]. reflexivity.
    + split; reflexivity.
    + vm_compute. reflexivity.
Defined.

(** C3, as stated, fails. A probe answered with 204, a success status, is
    passed over: the candidate selected is the first one answered with
    200. And on a standard output that cannot encode the mark of line 75,
    no candidate is selected though the second one answers 200. *)
Lemma probe_204_passed_over :
  (requests_head (World := three_links_world first_no_content) (asset "a.mp3") =
     inr 204%Z ∧
   extract_audio_url (U := ascii_db) (W := three_links_world first_no_content)
     song_url [] =
     (Return (Some (asset "b.mp3"), Some (lit "Great_Hit")),
      [EGet song_url 10; EHead (asset "a.mp3") 5; EHead (asset "b.mp3") 5])) ∧
  (probe_ok (W := latin1_world great_hit_response second_works) (asset "b.mp3") =
     true ∧
   extract_audio_url (U := ascii_db)
     (W := latin1_world great_hit_response second_works) song_url [] =
     (Return (None, None), [EGet song_url 10; EHead (asset "a.mp3") 5])).
Proof. repeat split; vm_compute; reflexivity. Qed.




(** *** Deduplication *)

(** C5. Whatever list of links the scan of a page yields, the
    deduplicated list has no duplicates and holds exactly the links of the
    scan; a link stands right after the distinct links that precede its
    first occurrence in the scan, so that two links come in the order of
    their first occurrences; and the list is no longer than the scan. *)
Theorem dedup_first_occurrences (all_mp3_urls : list str) :
  NoDup (dedup all_mp3_urls) ∧
  (∀ x, x ∈ dedup all_mp3_urls ↔ x ∈ all_mp3_urls) ∧
  (∀ l1 x l2, all_mp3_urls = l1 ++ x :: l2 → x ∉ l1 →
     dedup all_mp3_urls !! length (dedup l1) = Some x) ∧
  (∀ i j x y,
     dedup all_mp3_urls !! i = Some x → dedup all_mp3_urls !! j = Some y →
     (i < j)%nat →
     ∃ i' j', first_occurrence all_mp3_urls x i' ∧
              first_occurrence all_mp3_urls y j' ∧ (i' < j')%nat) ∧
  (length (dedup all_mp3_urls) ≤ length all_mp3_urls)%nat.
Proof.
  assert (Hel : ∀ l x, x ∈ dedup l ↔ x ∈ l).
  { intros l x. unfold dedup. rewrite dedup_loop_elem, elem_of_empty. intuition. }
  split; [apply dedup_loop_NoDup|]. split; [apply Hel|].
  split; [|split; [|apply dedup_loop_length]].
  - intros l1 x l2 -> Hx.
    destruct (dedup_first_occurrence l1 x l2 Hx) as [later ->].
    by rewrite list_lookup_middle.
  - intros i j x y Hi Hj Hij.
    assert (Hy : y ∈ all_mp3_urls) by (apply Hel; by eapply list_elem_of_lookup_2).
    destruct (first_occurrence_split _ _ Hy) as (l1 & l2 & -> & Hl1).
    destruct (dedup_first_occurrence l1 y l2 Hl1) as [later Hd].
    assert (Hnd := dedup_loop_NoDup (l1 ++ y :: l2) ∅). fold (dedup (l1 ++ y :: l2)) in Hnd.
    assert (j = length (dedup l1)) as ->.
    { eapply NoDup_lookup; [exact Hnd|exact Hj|].
      rewrite Hd. by rewrite list_lookup_middle. }
    rewrite Hd, lookup_app_l in Hi by done.
    assert (Hx : x ∈ l1) by (apply Hel; by eapply list_elem_of_lookup_2).
    destruct (first_occurrence_split _ _ Hx) as (l1a & l1b & -> & Hl1a).
    exists (length l1a), (length (l1a ++ x :: l1b)). split; [|split].
    + rewrite <- app_assoc, <- app_comm_cons.
      by apply first_occurrence_length.
    + by apply first_occurrence_length.
    + rewrite length_app. simpl. lia.
Qed.

(** *** The validator *)

(** C6, as amended. The validator never raises; it returns true exactly
    when the URL parses, the network location of the parse is
    [www.udio.com], character for character, and the path of the parse
    contains [/songs/]. A parse failure gives false. A URL it accepts has
    the host [www.udio.com]. *)
Theorem is_valid_udio_url_spec {W : World} (url : str) (tr : trace) :
  ∃ valid,
    is_valid_udio_url url tr = (Return valid, tr) ∧
    (valid = true ↔
       ∃ parsed, urlparse url = inr parsed ∧
                 netloc parsed = lit "www.udio.com" ∧
                 contains (lit "/songs/") (path parsed) = true) ∧
    (∀ e, urlparse url = inl e → valid = false) ∧
    (valid = true →
       ∃ parsed, urlparse url = inr parsed ∧
                 UrllibParse.hostname (netloc parsed) = Some (lit "www.udio.com")).
Proof.
  eexists. split; [apply is_valid_udio_url_eq|].
  destruct (urlparse url) as [e|parsed].
  - split; [|split]; [|done|done]. split; [done|]. by intros (? & ? & _).
  - assert (bool_decide (netloc parsed = lit "www.udio.com") &&
            contains (lit "/songs/") (path parsed) = true ↔
            netloc parsed = lit "www.udio.com" ∧
            contains (lit "/songs/") (path parsed) = true) as Hiff.
    { rewrite andb_true_iff, bool_decide_eq_true. done. }
    split; [|split]; [|done|].
    + rewrite Hiff. split.
      * intros [? ?]. by exists parsed.
      * by intros (? & [= <-] & ? & ?).
    + intros [Hn _]%Hiff. exists parsed. split; [done|]. by rewrite Hn.
Qed.

(** C6, as stated, fails: each of these URLs parses, its host is
    [www.udio.com] and its path contains [/songs/], and the validator
    returns false, because the network location carries a port or user
    information. *)
Lemma validator_rejects_port_and_userinfo :
  (host_and_path_match (lit "https://www.udio.com:443/songs/abc123") ∧
   is_valid_udio_url (W := great_hit_world all_work)
     (lit "https://www.udio.com:443/songs/abc123") [] = (Return false, [])) ∧
  (host_and_path_match (lit "https://user@www.udio.com/songs/abc123") ∧
   is_valid_udio_url (W := great_hit_world all_work)
     (lit "https://user@www.udio.com/songs/abc123") [] = (Return false, [])).
Proof.
  split; (split; [eexists; split; [reflexivity|split; reflexivity]|]);
    vm_compute; reflexivity.
Qed.

Example validator_accepts_song_url :
  is_valid_udio_url (W := great_hit_world all_work) song_url [] = (Return true, []).
Proof. vm_compute. reflexivity. Qed.

(** *** A page without asset links *)




(** *** Sanitizing *)

(** C8. Sanitizing a title twice gives what sanitizing it once gives. *)
Theorem sanitize_idempotent {U : UnicodeDB} (song_title : str) :
  sanitize (sanitize song_title) = sanitize song_title.
Proof.
  apply sanitize_clean.
  - unfold sanitize. apply replace_Forall; [apply kept_95|].
    apply Forall_strip, sub_class_kept.
  - apply replace_no_32.
  - apply replace_no_lead, strip_no_lead.
  - unfold sanitize. rewrite replace_reverse.
    apply replace_no_lead, strip_no_trail.
Qed.

Example sanitize_keeps_tab :
  sanitize (U := ascii_db) (lit " a" ++ [9] ++ lit "b c! ") =
  lit "a" ++ [9] ++ lit "b_c".
Proof. vm_compute. reflexivity. Qed.

(** *** The result pair *)



(** *** A title without the separator *)

(** C10, as amended. When the title element has no [ - ], the title text
    is dropped: the derived title is the default name, which sanitizing
    leaves as it is; and this is the title the function returns on a
    fetched page with at least one asset link, when the standard output
    can encode the URL, the two marks and the texts of the probe
    errors. *)
Theorem title_without_separator {U : UnicodeDB} {W : World}
    (response : Response) (title_text : str) :
  title_element (text response) = Some title_text →
  contains (lit " - ") title_text = false →
  sanitize (lit "udio_song") = lit "udio_song" ∧
  (∀ tr, song_title_of (text response) tr = (Return (lit "udio_song"), tr)) ∧
  (∀ url tr,
     printable url = true → probe_prints →
     fetched url response →
     Re.findall mp3_pattern (text response) ≠ [] →
     ∃ audio_url tr',
       extract_audio_url url tr =
       (Return (Some audio_url, Some (lit "udio_song")), tr')).
Proof.
  intros Ht Hsep. split; [apply sanitize_default|].
  assert (Htitle : ∀ tr, song_title_of (text response) tr = (Return (lit "udio_song"), tr)).
  { intros tr. destruct (song_title_of_spec (text response) tr)
      as (t & Heq & _ & _ & Hdef & _).
    by rewrite Heq, (Hdef title_text). }
  split; [done|]. intros url tr Hurl Hp Hf Hlinks.
  destruct (extract_fetched_title url tr response (lit "udio_song") Hurl Hp Hf Hlinks)
    as (first & rest & found & tr' & _ & _ & Hex); [apply Htitle|by apply printable_ascii|].
  eauto.
Qed.

Lemma title_without_separator_witness :
  sanitize (U := ascii_db) (lit "udio_song") = lit "udio_song" ∧
  song_title_of (U := ascii_db) (text plain_title_response) [] =
    (Return (lit "udio_song"), []) ∧
  ∃ audio_url tr',
    extract_audio_url (U := ascii_db) (W := plain_title_world) song_url [] =
    (Return (Some audio_url, Some (lit "udio_song")), tr').
Proof.
  destruct (title_without_separator (U := ascii_db) (W := plain_title_world)
              plain_title_response (lit "Great Hit"))
    as (Hdefault & Htitle & Hextract).
  - reflexivity.
  - reflexivity.
  - split; [exact Hdefault|]. split; [apply Htitle|].
    apply (Hextract song_url []).
    + reflexivity.
    + split; [reflexivity|]. split; [reflexivity|]. intros c [] _; reflexivity.
    + split; reflexivity.
    + vm_compute. discriminate.
Defined.

(** C10, as stated, fails: the title element has no separator, and the
    function returns no title, neither on a standard output that cannot
    encode the mark of line 72, nor on a page without an asset link. *)
Lemma plain_title_not_returned :
  title_element (text plain_title_response) = Some (lit "Great Hit") ∧
  contains (lit " - ") (lit "Great Hit") = false ∧
  extract_audio_url (U := ascii_db)
    (W := latin1_world plain_title_response all_work) song_url [] =
    (Return (None, None), [EGet song_url 10; EHead (asset "a.mp3") 5]) ∧
  extract_audio_url (U := ascii_db)
    (W := sample_world
            (inr {| status_code := 200; text := page (lit "Great Hit") [] |})
            all_work (ok_stream []) [[46]])
    song_url [] = (Return (None, None), [EGet song_url 10]).
Proof. repeat split; vm_compute; reflexivity. Qed.

Example great_hit_title :
  extract_audio_url (U := ascii_db) (W := great_hit_world second_works) song_url [] =
  (Return (Some (asset "b.mp3"), Some (lit "Great_Hit")),
   [EGet song_url 10; EHead (asset "a.mp3") 5; EHead (asset "b.mp3") 5]).
Proof. vm_compute. reflexivity. Qed.

Example plain_title_dropped :
  extract_audio_url (U := ascii_db) (W := plain_title_world) song_url [] =
  (Return (Some (asset "a.mp3"), Some (lit "udio_song")),
   [EGet song_url 10; EHead (asset "a.mp3") 5]).
Proof. vm_compute. reflexivity. Qed.

(** * Further properties of the code *)

(** ** The downloader *)

(** X1. When [download_audio] returns [True], the request for the audio
    was answered with a status outside 400-599 and the stream ended without
    an error; the effects were the request, the opening of the output file
    and one write per chunk of the body, in order; and the output file holds
    exactly the chunks of the body, concatenated. *)
Theorem download_success_writes_body {W : World} audio_url output_path tr tr' :
  download_audio audio_url output_path tr = (Return true, tr') →
  ∃ audio_response,
    requests_get_stream audio_url = inr audio_response ∧
    ((400 <=? stream_status_code audio_response) &&
     (stream_status_code audio_response <? 600))%Z = false ∧
    iter_error audio_response = None ∧
    tr' = tr ++ [EGetStream audio_url 30; EOpen output_path] ++
          writes output_path (iter_content audio_response) ∧
    file_content output_path tr' = concat (iter_content audio_response).
Proof.
  intros (audio_response & Hget & Hst & Herr & _ & ->)%download_true_inv.
  exists audio_response. do 3 (split; [done|]).
  split; [by rewrite <- !app_assoc|]. apply file_content_opened.
Qed.

Lemma download_success_writes_body_witness :
  ∃ audio_response,
    requests_get_stream (World := great_hit_world all_work) (asset "a.mp3") =
      inr audio_response ∧
    iter_error audio_response = None ∧
    file_content (lit "out/Great_Hit.mp3")
      [EGetStream (asset "a.mp3") 30; EOpen (lit "out/Great_Hit.mp3");
       EWrite (lit "out/Great_Hit.mp3") [73; 68; 51]] =
    concat (iter_content audio_response).
Proof.
  destruct (download_success_writes_body (W := great_hit_world all_work)
              (asset "a.mp3") (lit "out/Great_Hit.mp3") []
              [EGetStream (asset "a.mp3") 30; EOpen (lit "out/Great_Hit.mp3");
               EWrite (lit "out/Great_Hit.mp3") [73; 68; 51]])
    as (audio_response & Hget & _ & Herr & _ & Hcontent).
  - reflexivity.
  - exists audio_response. split; [exact Hget|]. split; [exact Herr|exact Hcontent].
Defined.

(** X2. When the download is refused with an exception (the request
    fails, or is answered with a status in 400-599, or carries a
    Content-Length header that [int] rejects or that is too large a number
    for the division of line 127, or the output file cannot be opened),
    the handler prints the text of the exception: [download_audio] returns
    [False] when the standard output can encode that text and raises
    [UnicodeEncodeError] when it cannot. Either way, this is after the
    request alone: no file is created and the content of the output path
    is what it was. *)
Theorem download_refused_touches_no_file {W : World} audio_url output_path e tr :
  refused audio_url output_path e →
  download_audio audio_url output_path tr =
    (if printable (str_exn e) then Return false else Raise UnicodeEncodeError,
     tr ++ [EGetStream audio_url 30]) ∧
  files_created (tr ++ [EGetStream audio_url 30]) = files_created tr ∧
  file_content output_path (tr ++ [EGetStream audio_url 30]) =
    file_content output_path tr.
Proof.
  intros Href. split; [|split].
  - assert (Hh : ∀ tr0, handled e false tr0 =
                        (if printable (str_exn e) then Return false
                         else Raise UnicodeEncodeError, tr0)).
    { intros tr0. unfold handled. by destruct (printable _). }
    rewrite download_audio_eq. cbv zeta. unfold refused in Href.
    destruct (requests_get_stream audio_url) as [e'|audio_response]; [by subst|].
    destruct (_ && _) eqn:Hst; [by subst|].
    cbv zeta in Href.
    destruct (if truthy _ then _ else _) as [e'|size]; [by subst|].
    destruct (float_overflows size (1024 * 1024)).
    + subst e. by rewrite printable_builtin.
    + by rewrite Href.
  - rewrite files_created_app. simpl. by rewrite app_nil_r.
  - unfold file_content. by rewrite foldl_app.
Qed.

Lemma download_refused_touches_no_file_witness :
  download_audio (W := download_world not_found_stream)
    (asset "a.mp3") (lit "out/Great_Hit.mp3") [] =
    (Return false, [] ++ [EGetStream (asset "a.mp3") 30]) ∧
  files_created ([] ++ [EGetStream (asset "a.mp3") 30]) = files_created [] ∧
  file_content (lit "out/Great_Hit.mp3") ([] ++ [EGetStream (asset "a.mp3") 30]) =
    file_content (lit "out/Great_Hit.mp3") [].
Proof.
  apply (download_refused_touches_no_file (W := download_world not_found_stream)
           (asset "a.mp3") (lit "out/Great_Hit.mp3") RequestException []).
  reflexivity.
Defined.

(** X3. When the stream breaks after some chunks, and the computations on
    the Content-Length header go through, every chunk received so far has
    been written and stays in the output file: the partial file is not
    removed. The handler prints the text of the exception that broke the
    stream: [download_audio] returns [False] when the standard output can
    encode it and raises [UnicodeEncodeError] when it cannot. *)
Theorem download_broken_stream_keeps_partial_file {W : World}
    audio_url output_path audio_response e tr :
  streaming audio_url output_path audio_response →
  content_length_ok (content_length audio_response)
    (length (concat (iter_content audio_response))) →
  iter_error audio_response = Some e →
  let tr' := tr ++ [EGetStream audio_url 30; EOpen output_path] ++
             writes output_path (iter_content audio_response) in
  download_audio audio_url output_path tr =
    (if printable (str_exn e) then Return false else Raise UnicodeEncodeError,
     tr') ∧
  file_content output_path tr' = concat (iter_content audio_response).
Proof.
  intros (Hget & Hst & Hopen & Hw) Hfs Herr tr'. split.
  - rewrite download_audio_eq. cbv zeta. rewrite Hget, Hst.
    assert ((if truthy (content_length audio_response)
             then int (default [] (content_length audio_response))
             else inr 0%Z) = inl e → False) as Hint.
    { destruct Hfs as [->|(total & -> & _)]; [done|]. by destruct (truthy _). }
    destruct (if truthy _ then _ else _) as [e'|size] eqn:Hsize.
    { destruct Hfs as [Hf|(total & Hf & _)]; rewrite Hf in Hsize; [done|].
      by destruct (truthy _). }
    assert (float_overflows size (1024 * 1024) = false) as ->.
    { destruct Hfs as [Hf|(total & Hf & _ & Hov & _)]; rewrite Hf in Hsize.
      - injection Hsize as <-. by apply float_overflows_0.
      - destruct (truthy _); injection Hsize as <-; [done|by apply float_overflows_0]. }
    rewrite Hopen.
    rewrite (write_chunks_ok _ _ _ _ _ _ Hw Hfs) by (simpl; lia).
    rewrite Herr. subst tr'. rewrite <- !app_assoc. simpl.
    unfold handled. by destruct (printable _).
  - subst tr'.
    change ([EGetStream audio_url 30; EOpen output_path] ++
            writes output_path (iter_content audio_response))
      with ([EGetStream audio_url 30] ++ [EOpen output_path] ++
            writes output_path (iter_content audio_response)).
    rewrite (app_assoc tr). apply file_content_opened.
Qed.

Lemma download_broken_stream_keeps_partial_file_witness :
  download_audio (W := download_world broken_stream)
    (asset "a.mp3") (lit "out/Great_Hit.mp3") [] =
    (Return false,
     [] ++ [EGetStream (asset "a.mp3") 30; EOpen (lit "out/Great_Hit.mp3")] ++
     writes (lit "out/Great_Hit.mp3") [[73; 68; 51]]) ∧
  file_content (lit "out/Great_Hit.mp3")
    ([] ++ [EGetStream (asset "a.mp3") 30; EOpen (lit "out/Great_Hit.mp3")] ++
     writes (lit "out/Great_Hit.mp3") [[73; 68; 51]]) = concat [[73; 68; 51]].
Proof.
  apply (download_broken_stream_keeps_partial_file (W := download_world broken_stream)
           (asset "a.mp3") (lit "out/Great_Hit.mp3") broken_stream
           RequestException []).
  - repeat split; repeat constructor.
  - right. exists 5%Z. split; [reflexivity|]. split; [discriminate|].
    split; vm_compute; reflexivity.
  - reflexivity.
Defined.

(** X4. A Content-Length of zero makes the progress computation of line
    137 divide by zero. With a non-empty body the first chunk is written,
    the division raises, and [download_audio] returns [False] with that one
    chunk in the file. With an empty body it returns [True] when the
    standard output can encode the output path, which line 143 prints, and
    [False] when it cannot, the empty file being there in both cases. *)
Theorem download_zero_content_length {W : World}
    audio_url output_path audio_response tr :
  streaming audio_url output_path audio_response →
  truthy (content_length audio_response) = true →
  int (default [] (content_length audio_response)) = inr 0%Z →
  iter_error audio_response = None →
  download_audio audio_url output_path tr =
  match iter_content audio_response with
  | [] => (Return (printable output_path),
           tr ++ [EGetStream audio_url 30; EOpen output_path])
  | chunk :: _ =>
      (Return false,
       tr ++ [EGetStream audio_url 30; EOpen output_path;
              EWrite output_path chunk])
  end.
Proof.
  intros (Hget & Hst & Hopen & Hw) Htruthy Hint Herr.
  rewrite download_audio_eq. cbv zeta.
  rewrite Hget, Hst, Htruthy, Hint, Hopen.
  rewrite float_overflows_0 by done.
  destruct (iter_content audio_response) as [|chunk rest].
  - simpl. unfold mret, M_ret. by rewrite Herr, <- app_assoc.
  - rewrite write_chunks_cons. inversion Hw as [|?? Hchunk _]; subst.
    rewrite Hchunk, Htruthy, Hint. simpl.
    rewrite handled_builtin by done. by rewrite <- !app_assoc.
Qed.

Lemma download_zero_content_length_witness :
  download_audio (W := download_world zero_length_stream)
    (asset "a.mp3") (lit "out/Great_Hit.mp3") [] =
  (Return false,
   [] ++ [EGetStream (asset "a.mp3") 30; EOpen (lit "out/Great_Hit.mp3");
          EWrite (lit "out/Great_Hit.mp3") [73; 68; 51]]).
Proof.
  apply (download_zero_content_length (W := download_world zero_length_stream)
           (asset "a.mp3") (lit "out/Great_Hit.mp3") zero_length_stream []).
  - repeat split; repeat constructor.
  - reflexivity.
  - reflexivity.
  - reflexivity.
Defined.

(** X5. [download_audio] never exits, and it raises only the
    [UnicodeEncodeError] of the print in its handler, when the standard
    output cannot encode the text of the exception caught; otherwise it
    returns a boolean. Whatever it ends with, it has made exactly one
    request (timeout 30), followed either by nothing, or by the opening of
    the output path and writes, to that path, of the first chunks of the
    body. *)
Theorem download_ends_within_bounds {W : World} audio_url output_path tr :
  ∃ o effects,
    download_audio audio_url output_path tr =
      (o, tr ++ [EGetStream audio_url 30] ++ effects) ∧
    ((∃ success, o = Return success) ∨
     (o = Raise UnicodeEncodeError ∧ ∃ e, printable (str_exn e) = false)) ∧
    (effects = [] ∨
     ∃ audio_response written,
       requests_get_stream audio_url = inr audio_response ∧
       written `prefix_of` iter_content audio_response ∧
       effects = EOpen output_path :: writes output_path written).
Proof.
  destruct (download_audio audio_url output_path tr) as [o tr'] eqn:Hd.
  destruct (download_audio_cases _ _ _ _ _ Hd) as (effects & -> & Heff & Ho).
  by exists o, effects.
Qed.

(** ** Extraction *)

(** A match of the asset pattern: the prefix, a name without a double
    quote, and the suffix. *)
Lemma match_at_literal (l : str) p (s m : str) g :
  Re.match_at ((Re.Char <$> l) ++ p) s = Some (m, g) →
  ∃ m' s', m = l ++ m' ∧ s = l ++ s' ∧ Re.match_at p s' = Some (m', g).
Proof.
  revert s m. induction l as [|c l IH]; intros s m; simpl.
  - intros Hm. by exists m, s.
  - destruct s as [|d s]; [done|]. destruct (N.eqb_spec c d) as [->|]; [|done].
    destruct (Re.match_at _ s) as [[m1 g1]|] eqn:Hm; [|done].
    intros [= <- <-]. destruct (IH _ _ Hm) as (m' & s' & -> & -> & Hrest).
    by exists m', s'.
Qed.

Lemma greedy_class cls rest (s run : str) r :
  Re.greedy cls rest s = Some (run, r) → Forall (λ c, cls c = true) run.
Proof.
  revert run r. induction s as [|d s IH]; intros run r; simpl; [done|].
  destruct (cls d) eqn:Hd; [|done].
  destruct (Re.greedy cls rest s) as [[run' r']|] eqn:Hg.
  - intros [= <- <-]. constructor; [done|]. by eapply IH.
  - destruct (rest s); [|done]. intros [= <- <-]. by repeat constructor.
Qed.

Lemma mp3_match_shape (s m : str) g :
  Re.match_at mp3_pattern s = Some (m, g) →
  ∃ name, m = lit "https://storage.googleapis.com/" ++ name ++ lit ".mp3" ∧
          name ≠ [] ∧ 34 ∉ name.
Proof.
  unfold mp3_pattern, Re.literal.
  intros (m1 & s1 & -> & -> & Hm)%match_at_literal. simpl in Hm.
  destruct (Re.greedy _ _ s1) as [[run [m2 g2]]|] eqn:Hg; [|done].
  injection Hm as <- <-.
  assert (Hcls := greedy_class _ _ _ _ _ Hg).
  apply greedy_rest in Hg as (Hrun & s2 & -> & Hm2).
  change (Re.match_at ((Re.Char <$> lit ".mp3") ++ []) s2 = Some (m2, g2)) in Hm2.
  apply match_at_literal in Hm2 as (m3 & s3 & -> & -> & Hm3).
  injection Hm3 as <- <-. rewrite app_nil_r.
  exists run. split; [done|]. split; [done|].
  intros Hin. rewrite Forall_forall in Hcls. by specialize (Hcls _ Hin).
Qed.

(** A match that [findall] returns is matched at some place of the
    subject. *)
Lemma findall_go_at p skip (s m : str) :
  m ∈ Re.findall_go p skip s →
  ∃ before s' g, s = before ++ s' ∧ Re.match_at p s' = Some (m, g).
Proof.
  revert skip. induction s as [|d s IH]; intros skip; simpl.
  - by intros ?%elem_of_nil.
  - assert (Hnext : ∀ k, m ∈ Re.findall_go p k s →
      ∃ before s' g, d :: s = before ++ s' ∧ Re.match_at p s' = Some (m, g)).
    { intros k (before & s' & g & -> & Hm)%IH. by exists (d :: before), s', g. }
    destruct skip as [|k]; [|apply Hnext].
    destruct (Re.match_at p (d :: s)) as [[m' g']|] eqn:Hm; [|apply Hnext].
    intros [->|Hin]%elem_of_cons; [|by eapply Hnext].
    by exists [], (d :: s), g'.
Qed.

Lemma mp3_url_on_page (body u : str) :
  u ∈ Re.findall mp3_pattern body →
  (∃ before after, body = before ++ u ++ after) ∧
  ∃ name, u = lit "https://storage.googleapis.com/" ++ name ++ lit ".mp3" ∧
          name ≠ [] ∧ 34 ∉ name.
Proof.
  intros (before & s' & g & -> & Hm)%findall_go_at. split.
  - destruct (match_at_prefix _ _ _ _ Hm) as [after ->]. by exists before, after.
  - by eapply mp3_match_shape.
Qed.

(** X6. The audio URL that [extract_audio_url] returns is a match of the
    asset pattern in the text of the fetched page: it occurs in the page
    text, starts with the storage host prefix, ends with [.mp3], and what
    lies between is non-empty and holds no double quote (code point 34). *)
Theorem extract_url_is_on_page {U : UnicodeDB} {W : World}
    url tr audio_url song_title tr' :
  extract_audio_url url tr = (Return (Some audio_url, song_title), tr') →
  ∃ response,
    fetched url response ∧
    audio_url ∈ Re.findall mp3_pattern (text response) ∧
    (∃ before after, text response = before ++ audio_url ++ after) ∧
    ∃ name,
      audio_url = lit "https://storage.googleapis.com/" ++ name ++ lit ".mp3" ∧
      name ≠ [] ∧ 34 ∉ name.
Proof.
  intros Hex.
  destruct (extract_outcome _ _ _ _ Hex)
    as [[? _]|[?|(a & t & response & [= <- _] & Hf & Hin & _)]]; [done|done|].
  exists response. split; [done|]. split; [done|]. by apply mp3_url_on_page.
Qed.

Lemma extract_url_is_on_page_witness :
  ∃ response,
    fetched (W := great_hit_world second_works) song_url response ∧
    asset "b.mp3" ∈ Re.findall mp3_pattern (text response) ∧
    (∃ before after, text response = before ++ asset "b.mp3" ++ after) ∧
    ∃ name,
      asset "b.mp3" = lit "https://storage.googleapis.com/" ++ name ++ lit ".mp3" ∧
      name ≠ [] ∧ 34 ∉ name.
Proof.
  apply (extract_url_is_on_page (U := ascii_db) (W := great_hit_world second_works)
           song_url [] (asset "b.mp3") (Some (lit "Great_Hit"))
           [EGet song_url 10; EHead (asset "a.mp3") 5; EHead (asset "b.mp3") 5]).
  vm_compute. reflexivity.
Defined.

(** X7. When the standard output can encode the URL and the request for
    the page fails or is answered with a status in 400-599, the handler
    prints the text of the exception: [extract_audio_url] returns [(None,
    None)] when the standard output can encode that text and raises
    [UnicodeEncodeError] when it cannot. Either way, this is after that one
    request: no candidate is probed. *)
Theorem extract_page_not_fetched {U : UnicodeDB} {W : World} url tr :
  printable url = true →
  (∀ response, ¬ fetched url response) →
  extract_audio_url url tr =
  (if printable (str_exn match requests_get url with
                         | inl e => e
                         | inr _ => RequestException
                         end)
   then Return (None, None) else Raise UnicodeEncodeError,
   tr ++ [EGet url 10]).
Proof.
  intros Hurl Hnot.
  assert (Hh : ∀ e tr0, handled e (@None str, @None str) tr0 =
                        (if printable (str_exn e) then Return (None, None)
                         else Raise UnicodeEncodeError, tr0)).
  { intros e tr0. unfold handled. by destruct (printable (str_exn e)). }
  destruct (requests_get url) as [e|response] eqn:Hget.
  - by rewrite (extract_fetch_failed url tr e).
  - destruct ((400 <=? status_code response) && (status_code response <? 600))%Z eqn:Hst.
    + by rewrite (extract_bad_status url tr response).
    + by destruct (Hnot response).
Qed.

Lemma extract_page_not_fetched_witness :
  extract_audio_url (U := ascii_db) (W := unreachable_world) song_url [] =
  (Return (None, None), [] ++ [EGet song_url 10]).
Proof.
  apply (extract_page_not_fetched (U := ascii_db) (W := unreachable_world) song_url []).
  - reflexivity.
  - intros response [Hget _]. discriminate Hget.
Defined.

(** X8. [extract_audio_url] never exits, and it raises only the
    [UnicodeEncodeError] of a print; otherwise it returns. When the
    standard output cannot encode the URL it makes no request. Otherwise
    it makes one GET of the page (timeout 10), followed by HEAD probes
    (timeout 5) of pairwise distinct URLs, each of them a match of the
    asset pattern in the fetched page. *)
Theorem extract_requests {U : UnicodeDB} {W : World} url tr :
  ∃ o tr',
    extract_audio_url url tr = (o, tr') ∧
    ((∃ result, o = Return result) ∨ o = Raise UnicodeEncodeError) ∧
    ((printable url = false ∧ o = Raise UnicodeEncodeError ∧ tr' = tr) ∨
     (printable url = true ∧
      ∃ probed,
        tr' = tr ++ [EGet url 10] ++ probes probed ∧
        NoDup probed ∧
        ∀ candidate, candidate ∈ probed →
          ∃ response, fetched url response ∧
                      candidate ∈ Re.findall mp3_pattern (text response))).
Proof.
  assert (Hnil : NoDup (@nil str) ∧
                 ∀ candidate, candidate ∈ @nil str →
                   ∃ response, fetched url response ∧
                               candidate ∈ Re.findall mp3_pattern (text response)).
  { split; [constructor|]. by intros ? ?%elem_of_nil. }
  destruct (extract_cases url tr)
    as [[Hurl Hr]|[Hurl [(e & _ & Hr)|[(response & _ & _ & Hr)|
        (response & probed & Hf & Hpre & Hr)]]]].
  - exists (Raise UnicodeEncodeError), tr. split; [done|]. split; [by right|by left].
  - destruct (handled_cases e (@None str, @None str) (tr ++ [EGet url 10]))
      as [Hh|[_ Hh]]; rewrite Hh in Hr; eexists _, _; (split; [exact Hr|]);
      (split; [eauto|]); right; (split; [done|]); exists []; by rewrite app_nil_r.
  - eexists _, _. split; [exact Hr|]. split; [eauto|]. right. split; [done|].
    exists []. by rewrite app_nil_r.
  - assert (Hprobed : NoDup probed ∧
                      ∀ candidate, candidate ∈ probed →
                        ∃ response, fetched url response ∧
                                    candidate ∈ Re.findall mp3_pattern (text response)).
    { destruct Hpre as [later Hd]. split.
      - assert (Hnd := dedup_loop_NoDup (Re.findall mp3_pattern (text response)) ∅).
        fold (dedup (Re.findall mp3_pattern (text response))) in Hnd.
        rewrite Hd in Hnd. by apply NoDup_app in Hnd as [? _].
      - intros candidate Hin. exists response. split; [done|].
        apply dedup_elem. rewrite Hd. apply elem_of_app. by left. }
    destruct Hr as [Hr|(a & t & _ & _ & Hr)];
      eexists _, _; (split; [exact Hr|]); (split; [eauto|]);
      right; (split; [done|]); by exists probed.
Qed.

Section FileNames.
Context {U : UnicodeDB}.

(** An ASCII character of a title is a letter, a digit, an underscore, a
    hyphen, or a control character that counts as whitespace. *)
Lemma title_char_ascii c :
  title_char c → c < 128 →
  ascii_isalnum c = true ∨ c = 95 ∨ c = 45 ∨ (ascii_isspace c = true ∧ c ≠ 32).
Proof.
  intros [Hw|[->|[Hs Hne]]] Hc.
  - unfold is_word in Hw. rewrite isalnum_ascii in Hw by done.
    apply orb_true_iff in Hw as [?|?%N.eqb_eq]; auto.
  - auto.
  - unfold is_space in Hs. rewrite isspace_ascii in Hs by done. auto.
Qed.

Lemma title_char_not c (bad : char) :
  title_char c → bad < 128 →
  ascii_isalnum bad = false → ascii_isspace bad = false → bad ≠ 95 → bad ≠ 45 →
  c ≠ bad.
Proof.
  intros Ht Hb Ha Hs H95 H45 ->.
  destruct (title_char_ascii _ Ht Hb) as [?|[?|[?|[? _]]]]; congruence.
Qed.

Lemma title_char_not_space c : title_char c → c ≠ 32.
Proof.
  intros [Hw|[->|[_ ?]]]; [|done|done]. intros ->.
  unfold is_word in Hw. by rewrite isalnum_ascii in Hw.
Qed.

End FileNames.

(** X9. A title returned by [extract_audio_url] holds no slash,
    backslash, dot, colon, NUL or space; hence the output path that [main]
    builds from it lies directly in the output directory: the directory, a
    slash unless the directory is empty or ends with one, the title and
    [.mp3]. *)
Theorem extract_title_is_file_name {U : UnicodeDB} {W : World}
    url tr audio_url song_title tr' :
  extract_audio_url url tr = (Return (audio_url, Some song_title), tr') →
  Forall (λ c, c ≠ 47 ∧ c ≠ 92 ∧ c ≠ 46 ∧ c ≠ 58 ∧ c ≠ 0 ∧ c ≠ 32) song_title ∧
  ∀ output_dir,
    os_path_join output_dir (song_title ++ lit ".mp3") =
    (if bool_decide (output_dir = []) || startswith (reverse output_dir) [47]
     then output_dir else output_dir ++ [47]) ++ song_title ++ lit ".mp3".
Proof.
  intros Hex.
  assert (Hchars : Forall title_char song_title).
  { destruct (extract_outcome _ _ _ _ Hex)
      as [[? _]|[?|(a & t & response & [= _ <-] & _ & _ & Ht)]]; [done|done|].
    destruct (song_title_of_spec (text response) []) as (t' & Ht' & Hch & _).
    congruence. }
  assert (Hsafe : Forall (λ c, c ≠ 47 ∧ c ≠ 92 ∧ c ≠ 46 ∧ c ≠ 58 ∧ c ≠ 0 ∧ c ≠ 32)
                    song_title).
  { eapply Forall_impl; [exact Hchars|]. intros c Hc.
    repeat split; first [by apply (title_char_not c)|by apply title_char_not_space]. }
  split; [done|]. intros output_dir. unfold os_path_join.
  assert (startswith (song_title ++ lit ".mp3") [47] = false) as ->.
  { destruct Hsafe as [|c t [Hc _] _]; [done|].
    change (startswith ((c :: t) ++ lit ".mp3") [47])
      with ((47 =? c) && startswith (t ++ lit ".mp3") []).
    by destruct (N.eqb_spec 47 c) as [<-|]. }
  destruct (_ || _); [done|]. by rewrite <- app_assoc.
Qed.

Lemma extract_title_is_file_name_witness :
  Forall (λ c, c ≠ 47 ∧ c ≠ 92 ∧ c ≠ 46 ∧ c ≠ 58 ∧ c ≠ 0 ∧ c ≠ 32) (lit "Great_Hit") ∧
  ∀ output_dir,
    os_path_join output_dir (lit "Great_Hit" ++ lit ".mp3") =
    (if bool_decide (output_dir = []) || startswith (reverse output_dir) [47]
     then output_dir else output_dir ++ [47]) ++ lit "Great_Hit" ++ lit ".mp3".
Proof.
  apply (extract_title_is_file_name (U := ascii_db) (W := great_hit_world second_works)
           song_url [] (Some (asset "b.mp3")) (lit "Great_Hit")
           [EGet song_url 10; EHead (asset "a.mp3") 5; EHead (asset "b.mp3") 5]).
  vm_compute. reflexivity.
Defined.

(** ** The orchestrator *)

(** X10. A run ends in one of three ways: exit status 0, exit status 1,
    or an uncaught exception. The exception is that of [os.makedirs], when
    the output directory does not exist and creating it fails, before any
    request is made; or the [UnicodeEncodeError] of a print, which takes a
    character that the standard output cannot encode; or that of
    [os.path.abspath] on the output path. *)
Theorem main_exit_status {U : UnicodeDB} {W : World} (argv : list str) :
  ∃ tr,
    run_main argv = (ExitCode 0, tr) ∨ run_main argv = (ExitCode 1, tr) ∨
    ∃ e, run_main argv = (Traceback e, tr) ∧
         ((tr = [] ∧
           os_path_exists (default [46] (argv !! 2%nat)) = false ∧
           os_makedirs (default [46] (argv !! 2%nat)) = Some e) ∨
          (e = UnicodeEncodeError ∧ ∃ c, encodable c = false) ∨
          ∃ output_path, os_path_abspath output_path = inl e).
Proof.
  destruct argv as [|prog [|arg rest]];
    [exists []; right; left; by apply run_main_few_arguments; simpl; lia..|].
  destruct (is_valid_udio_url_cases (strip arg)) as [Hvalid|Hinvalid].
  2: { exists []. right. left. by apply run_main_invalid. }
  assert (Hchar : ∀ s, printable s = false → ∃ c, encodable c = false).
  { intros s (c & _ & Hc)%unprintable_char. eauto. }
  destruct (run_main_cases prog arg rest)
    as [(e & Hex & Hmk & Hrun)|[(Hex & Hmk & Hdir & Hrun)|
        (tr0 & o1 & tr1 & _ & Hex1 & Hcase)]].
  { done. }
  - exists []. right. right. exists e. split; [done|]. by left.
  - eexists. right. right. eexists. split; [exact Hrun|]. right. left. eauto.
  - destruct Hcase as [[-> Hrun]|[[-> Hrun]|
      (a & t & o2 & tr2 & -> & Hdl & Hcase)]].
    + exists tr1. right. right. exists UnicodeEncodeError. split; [done|].
      right. left. split; [done|].
      destruct (extract_outcome _ _ _ _ Hex1) as [[_ [s Hs]]|[?|(?&?&?&?&_)]];
        [eauto|done|done].
    + eauto.
    + destruct Hcase as [[-> Hrun]|[[-> Hrun]|[-> [Hrun|[(s & Hs & Hrun)|(e & Habs & Hrun)]]]]].
      * exists tr2. right. right. exists UnicodeEncodeError. split; [done|].
        right. left. split; [done|].
        destruct (download_audio_cases _ _ _ _ _ Hdl) as (_ & _ & _ & [[? ?]|[_ [e He]]]);
          [done|eauto].
      * eauto.
      * eauto.
      * exists tr2. right. right. exists UnicodeEncodeError. split; [done|].
        right. left. eauto.
      * exists tr2. right. right. exists e. split; [done|]. right. right. eauto.
Qed.

(** X11. With fewer than two arguments, or with a URL argument that the
    validator rejects once stripped, the program exits with status 1 before
    it creates a directory or makes a request. *)
Theorem main_fails_fast {U : UnicodeDB} {W : World} (argv : list str) :
  (length argv < 2)%nat ∨
  (∃ arg, argv !! 1%nat = Some arg ∧
          is_valid_udio_url (strip arg) [] = (Return false, [])) →
  run_main argv = (ExitCode 1, []).
Proof.
  intros [Hlen|(arg & Harg & Hinvalid)]; [by apply run_main_few_arguments|].
  destruct argv as [|prog [|arg' rest]]; [done|done|].
  injection Harg as ->. by apply run_main_invalid.
Qed.

Lemma main_fails_fast_witness :
  run_main (U := ascii_db) (W := great_hit_world all_work)
    [lit "udio_downloader.py"; lit "https://example.com/songs/abc123"] =
    (ExitCode 1, []) ∧
  run_main (U := ascii_db) (W := great_hit_world all_work)
    [lit "udio_downloader.py"] = (ExitCode 1, []).
Proof.
  split.
  - apply (main_fails_fast (U := ascii_db) (W := great_hit_world all_work)).
    right. exists (lit "https://example.com/songs/abc123").
    split; vm_compute; reflexivity.
  - apply (main_fails_fast (U := ascii_db) (W := great_hit_world all_work)).
    left. vm_compute. lia.
Defined.

(** X12. When a run ends with status 0, the stripped argument was a valid
    URL whose page was fetched, and exactly one file was created: the path
    of the derived title with [.mp3] in the output directory, holding the
    whole body streamed from an audio URL matched on that page. *)
Theorem main_success_saves_the_stream {U : UnicodeDB} {W : World}
    (argv : list str) (tr : trace) :
  run_main argv = (ExitCode 0, tr) →
  ∃ arg page audio_url song_title audio_response,
    argv !! 1%nat = Some arg ∧
    is_valid_udio_url (strip arg) [] = (Return true, []) ∧
    fetched (strip arg) page ∧
    audio_url ∈ Re.findall mp3_pattern (text page) ∧
    song_title_of (text page) [] = (Return song_title, []) ∧
    requests_get_stream audio_url = inr audio_response ∧
    let output_path :=
      os_path_join (default [46] (argv !! 2%nat)) (song_title ++ lit ".mp3") in
    files_created tr = [output_path] ∧
    file_content output_path tr = concat (iter_content audio_response).
Proof.
  intros Hrun.
  destruct argv as [|prog [|arg rest]];
    [by rewrite run_main_few_arguments in Hrun by (simpl; lia)..|].
  destruct (is_valid_udio_url_cases (strip arg)) as [Hvalid|Hinvalid].
  2: { by rewrite run_main_invalid in Hrun. }
  destruct (run_main_cases prog arg rest Hvalid)
    as [(e & _ & _ & Hbad)|[(_ & _ & _ & Hbad)|
        (tr0 & o1 & tr1 & Htr0 & Hex & Hcase)]]; [congruence|congruence|].
  destruct Hcase as [[_ Hbad]|[[_ Hbad]|
    (a & t & o2 & tr2 & -> & Hdl & Hcase)]]; [congruence|congruence|].
  destruct Hcase as [[_ Hbad]|[[_ Hbad]|[-> Hok]]]; [congruence|congruence|].
  assert (tr2 = tr) as ->.
  { destruct Hok as [?|[(? & _ & ?)|(? & _ & ?)]]; congruence. }
  destruct (extract_outcome _ _ _ _ Hex)
    as [[? _]|[?|(a' & t' & page & [= <- <-] & Hf & Hin & Ht)]]; [done|done|].
  destruct (extract_trace _ _ _ _ Hex) as [Hfiles _].
  apply download_true_inv in Hdl as (audio_response & Hget & _ & _ & _ & ->).
  exists arg, page, a, t, audio_response.
  do 6 (split; [done|]). cbv zeta. split.
  - rewrite !files_created_app, Hfiles, files_created_writes. simpl.
    by destruct Htr0 as [-> | ->].
  - apply file_content_opened.
Qed.

Lemma main_success_saves_the_stream_witness :
  ∃ arg page audio_url song_title audio_response,
    sample_argv !! 1%nat = Some arg ∧
    is_valid_udio_url (W := great_hit_world all_work) (strip (U := ascii_db) arg) [] =
      (Return true, []) ∧
    fetched (W := great_hit_world all_work) (strip (U := ascii_db) arg) page ∧
    audio_url ∈ Re.findall mp3_pattern (text page) ∧
    song_title_of (U := ascii_db) (text page) [] = (Return song_title, []) ∧
    requests_get_stream (World := great_hit_world all_work) audio_url =
      inr audio_response ∧
    let output_path :=
      os_path_join (default [46] (sample_argv !! 2%nat)) (song_title ++ lit ".mp3") in
    files_created
      (run_main (U := ascii_db) (W := great_hit_world all_work) sample_argv).2 =
      [output_path] ∧
    file_content output_path
      (run_main (U := ascii_db) (W := great_hit_world all_work) sample_argv).2 =
      concat (iter_content audio_response).
Proof.
  apply (main_success_saves_the_stream (U := ascii_db) (W := great_hit_world all_work)
           sample_argv
           (run_main (U := ascii_db) (W := great_hit_world all_work) sample_argv).2).
  vm_compute. reflexivity.
Defined.

(** X13. Whatever the arguments and the world, a run opens at most one
    file for writing, the path in the output directory of a title made of
    title characters followed by [.mp3], and writes to no other path. *)
Theorem main_touches_one_file {U : UnicodeDB} {W : World} (argv : list str) :
  let tr := (run_main argv).2 in
  let output_dir := default [46] (argv !! 2%nat) in
  (files_created tr = [] ∧ ∀ p chunk, EWrite p chunk ∉ tr) ∨
  ∃ song_title,
    Forall title_char song_title ∧
    files_created tr = [os_path_join output_dir (song_title ++ lit ".mp3")] ∧
    ∀ p chunk, EWrite p chunk ∈ tr →
               p = os_path_join output_dir (song_title ++ lit ".mp3").
Proof.
  cbv zeta.
  assert (Hnil : files_created [] = [] ∧ ∀ p chunk, EWrite p chunk ∉ [])
    by (split; [done|]; intros ???%elem_of_nil; done).
  destruct argv as [|prog [|arg rest]];
    [left; by rewrite run_main_few_arguments by (simpl; lia)..|].
  destruct (is_valid_udio_url_cases (strip arg)) as [Hvalid|Hinvalid].
  2: { left. by rewrite run_main_invalid. }
  set (output_dir := default [46] ((prog :: arg :: rest) !! 2%nat)).
  assert (Hmk : files_created [EMakedirs output_dir] = [] ∧
                ∀ p chunk, EWrite p chunk ∉ [EMakedirs output_dir]).
  { split; [done|]. by intros p chunk ?%list_elem_of_singleton. }
  destruct (run_main_cases prog arg rest Hvalid)
    as [(e & _ & _ & ->)|[(_ & _ & _ & ->)|
        (tr0 & o1 & tr1 & Htr0 & Hex & Hcase)]]; [by left|by left|].
  destruct (extract_trace _ _ _ _ Hex) as [Hfiles Hwrites].
  assert (Hstart : files_created tr1 = [] ∧ ∀ p chunk, EWrite p chunk ∉ tr1).
  { split.
    - rewrite Hfiles. by destruct Htr0 as [-> | ->].
    - intros p chunk Hin%Hwrites. destruct Htr0 as [-> | ->].
      + by apply elem_of_nil in Hin.
      + by apply list_elem_of_singleton in Hin. }
  destruct Hcase as [[_ ->]|[[_ ->]|
    (a & t & o2 & tr2 & -> & Hdl & Hcase)]]; [by left|by left|].
  assert ((run_main (prog :: arg :: rest)).2 = tr2) as ->.
  { destruct Hcase as [[_ ->]|[[_ ->]|[_ [->|[(? & _ & ->)|(? & _ & ->)]]]]]; done. }
  destruct (download_audio_cases _ _ _ _ _ Hdl) as (effects & -> & Heff & _).
  destruct Hstart as [Hfiles1 Hwrites1].
  destruct Heff as [->|(audio_response & written & _ & _ & ->)].
  - left. split.
    + rewrite files_created_app, Hfiles1. done.
    + intros p chunk [?|Hin]%elem_of_app; [by eapply Hwrites1|].
      rewrite app_nil_r in Hin. by apply list_elem_of_singleton in Hin.
  - right.
    assert (Forall title_char t) as Hchars.
    { destruct (extract_outcome _ _ _ _ Hex)
        as [[? _]|[?|(a' & t' & page & [= _ <-] & _ & _ & Ht)]]; [done|done|].
      destruct (song_title_of_spec (text page) []) as (t' & Ht' & Hch & _).
      congruence. }
    exists t. split; [done|]. fold output_dir. split.
    + rewrite !files_created_app, Hfiles1. simpl.
      by rewrite files_created_writes.
    + intros p chunk [?|Hin]%elem_of_app; [by edestruct Hwrites1|].
      apply elem_of_cons in Hin as [?|Hin]; [done|].
      apply elem_of_cons in Hin as [?|Hin]; [done|].
      unfold writes in Hin. by apply list_elem_of_fmap in Hin as (? & [= -> _] & _).
Qed.

(** ** Deduplication *)

(** X14. The deduplication loop of lines 55-60 leaves a list without
    repeats as it is, and running it on its own result changes nothing. *)
Theorem dedup_of_distinct (urls : list str) :
  (NoDup urls → dedup urls = urls) ∧ dedup (dedup urls) = dedup urls.
Proof.
  assert (Hid : ∀ l : list str, NoDup l → dedup l = l).
  { intros l. unfold dedup.
    assert (Hgen : ∀ seen : gset str,
      NoDup l → (∀ x, x ∈ l → x ∉ seen) → dedup_loop l seen [] = l).
    { induction l as [|x l IH]; intros seen Hnd Hseen; [done|].
      apply NoDup_cons in Hnd as [Hx Hnd].
      rewrite dedup_loop_cons_new by (apply Hseen, elem_of_cons; by left).
      f_equal. apply IH; [done|]. intros y Hy.
      rewrite elem_of_union, elem_of_singleton. intros [->|Hin]; [done|].
      apply (Hseen y); [|done]. apply elem_of_cons. by right. }
    intros Hnd. apply Hgen; [done|]. intros x _. apply not_elem_of_empty. }
  split; [apply Hid|]. apply Hid, dedup_loop_NoDup.
Qed.

Lemma dedup_of_distinct_witness :
  dedup [asset "a.mp3"; asset "b.mp3"] = [asset "a.mp3"; asset "b.mp3"] ∧
  dedup (dedup [asset "a.mp3"; asset "b.mp3"]) = dedup [asset "a.mp3"; asset "b.mp3"].
Proof.
  destruct (dedup_of_distinct [asset "a.mp3"; asset "b.mp3"]) as [Hid Hidem].
  split; [|exact Hidem].
  apply Hid. apply (bool_decide_unpack _). vm_compute. exact I.
Defined.

(** ** The title *)

(** ** Separators *)

Section SeparatorFacts.
Implicit Types (a s rest cur : str) (x : char).

Lemma startswith_app s1 s2 : startswith (s1 ++ s2) s1 = true.
Proof. induction s1 as [|c s1 IH]; [by destruct s2|]. simpl. by rewrite N.eqb_refl. Qed.

Lemma contains_app a sep rest : contains sep (a ++ sep ++ rest) = true.
Proof.
  induction a as [|c a IH].
  - simpl app. destruct (sep ++ rest) eqn:Hs.
    + apply app_eq_nil in Hs as [-> _]. done.
    + rewrite <- Hs. unfold contains. destruct (sep ++ rest) eqn:Hs';
        rewrite <- Hs'; by rewrite startswith_app.
  - rewrite <- app_comm_cons, contains_cons, IH. apply orb_true_r.
Qed.

(** No separator [ x ] starts at a character of [a] when [a] has no
    [x]. *)
Lemma startswith_cons c s p (ps : str) :
  startswith (c :: s) (p :: ps) = (p =? c) && startswith s ps.
Proof. done. Qed.

Lemma startswith_no_mark a x rest c :
  x ≠ 32 → x ∉ c :: a →
  startswith (c :: a ++ [32; x; 32] ++ rest) [32; x; 32] = false.
Proof.
  intros Hx Hin. rewrite startswith_cons.
  destruct (N.eqb_spec 32 c) as [<-|]; [|done].
  destruct a as [|c' a].
  - change ([] ++ [32; x; 32] ++ rest) with (32 :: x :: 32 :: rest).
    rewrite startswith_cons. by destruct (N.eqb_spec x 32).
  - rewrite <- app_comm_cons, startswith_cons.
    destruct (N.eqb_spec x c') as [->|]; [|done].
    exfalso. apply Hin. apply elem_of_cons. right. apply elem_of_cons. by left.
Qed.

Lemma split_go_to_mark a x rest cur :
  x ≠ 32 → x ∉ a →
  split_go [32; x; 32] 0 cur (a ++ [32; x; 32] ++ rest) =
  (reverse cur ++ a) :: split_go [32; x; 32] 0 [] rest.
Proof.
  intros Hx. revert cur. induction a as [|c a IH]; intros cur Hin.
  - simpl app. rewrite split_go_cons.
    change (startswith (32 :: x :: 32 :: rest) [32; x; 32])
      with (startswith ([32; x; 32] ++ rest) [32; x; 32]).
    rewrite startswith_app, app_nil_r. done.
  - rewrite <- app_comm_cons, split_go_cons, startswith_no_mark by done.
    rewrite IH.
    + by rewrite reverse_cons, <- app_assoc.
    + intros Ha. apply Hin. apply elem_of_cons. by right.
Qed.

Lemma split_go_no_mark a x cur :
  x ∉ a → split_go [32; x; 32] 0 cur a = [reverse cur ++ a].
Proof.
  revert cur. induction a as [|c a IH]; intros cur Hin.
  - simpl. by rewrite app_nil_r.
  - rewrite split_go_cons.
    assert (startswith (c :: a) [32; x; 32] = false) as ->.
    { rewrite startswith_cons. destruct (32 =? c); [|done].
      destruct a as [|c' a]; [done|]. rewrite startswith_cons.
      destruct (N.eqb_spec x c') as [->|]; [|done].
      exfalso. apply Hin. apply elem_of_cons. right. apply elem_of_cons. by left. }
    rewrite IH.
    + by rewrite reverse_cons, <- app_assoc.
    + intros Ha. apply Hin. apply elem_of_cons. by right.
Qed.

Lemma split_one_mark a b x :
  x ≠ 32 → x ∉ a → x ∉ b → split [32; x; 32] (a ++ [32; x; 32] ++ b) = [a; b].
Proof.
  intros Hx Ha Hb. unfold split.
  by rewrite split_go_to_mark, split_go_no_mark.
Qed.

Lemma split_first_piece a b x :
  x ≠ 32 → x ∉ a → split [32; x; 32] (a ++ [32; x; 32] ++ b) !! 0%nat = Some a.
Proof. intros Hx Ha. unfold split. by rewrite split_go_to_mark. Qed.

End SeparatorFacts.

(** X15. The sanitizing of line 94 never lengthens a title and leaves no
    whitespace at either end of it; an ASCII title made of letters, digits,
    underscores and hyphens is left as it is. *)
Theorem sanitize_file_name {U : UnicodeDB} (song_title : str) :
  (length (sanitize song_title) ≤ length song_title)%nat ∧
  no_lead (sanitize song_title) ∧ no_lead (reverse (sanitize song_title)) ∧
  (Forall (λ c, c < 128 ∧ (ascii_isalnum c = true ∨ c = 95 ∨ c = 45)) song_title →
   sanitize song_title = song_title).
Proof.
  split; [|split; [|split]].
  - unfold sanitize, replace. rewrite length_fmap.
    assert (Hl : ∀ s : str, (length (lstrip s) ≤ length s)%nat).
    { intros s. destruct (lstrip_suffix s) as [ws Hws].
      rewrite Hws at 2. rewrite length_app. lia. }
    unfold strip, rstrip.
    etransitivity; [apply Hl|]. rewrite length_reverse.
    etransitivity; [apply Hl|]. rewrite length_reverse.
    unfold Re.sub_class. apply List.filter_length_le.
  - apply replace_no_lead, strip_no_lead.
  - unfold sanitize. rewrite replace_reverse. apply replace_no_lead, strip_no_trail.
  - intros Hname.
    assert (Hns : Forall (λ c, is_space c = false) song_title).
    { eapply Forall_impl; [exact Hname|]. intros c [Hc Hcase]. simpl in Hcase.
      rewrite is_space_ascii by done.
      destruct Hcase as [Ha|[->| ->]]; [|done|done].
      unfold ascii_isalnum, ascii_isspace in *.
      destruct (N.leb_spec 48 c), (N.leb_spec c 57), (N.leb_spec 65 c),
        (N.leb_spec c 90), (N.leb_spec 97 c), (N.leb_spec c 122),
        (N.leb_spec 9 c), (N.leb_spec c 13), (N.leb_spec 28 c),
        (N.leb_spec c 32); simpl in *; try done; lia. }
    apply sanitize_clean.
    + eapply Forall_impl; [exact Hname|]. intros c [Hc Hcase]. simpl in Hcase.
      destruct Hcase as [Ha|[->| ->]].
      * apply word_kept; auto.
      * apply word_kept; auto.
      * unfold kept, unsafe_char. simpl. by rewrite orb_true_r.
    + eapply Forall_impl; [exact Hns|]. intros c Hc ->. simpl in Hc.
      by rewrite is_space_32 in Hc.
    + by destruct Hns.
    + apply Forall_reverse in Hns. by destruct Hns.
Qed.

Lemma sanitize_file_name_witness :
  (length (sanitize (U := ascii_db) (lit "Great_Hit-2")) ≤ length (lit "Great_Hit-2"))%nat ∧
  no_lead (U := ascii_db) (sanitize (U := ascii_db) (lit "Great_Hit-2")) ∧
  no_lead (U := ascii_db) (reverse (sanitize (U := ascii_db) (lit "Great_Hit-2"))) ∧
  sanitize (U := ascii_db) (lit "Great_Hit-2") = lit "Great_Hit-2".
Proof.
  destruct (sanitize_file_name (U := ascii_db) (lit "Great_Hit-2"))
    as (Hlen & Hlead & Htrail & Hid).
  split; [exact Hlen|]. split; [exact Hlead|]. split; [exact Htrail|].
  apply Hid. apply (bool_decide_unpack _). vm_compute. exact I.
Defined.

(** X16. For a page title of the shape [Artist - Song | Site], where no
    part holds a hyphen and the song holds no vertical bar, the derived
    title is the song, stripped and sanitized; and extraction returns it
    with an audio URL whenever the page was fetched and has an asset link,
    and the standard output can encode the URL, the two marks, the texts
    of the probe errors and the title text. *)
Theorem title_of_artist_song_site {U : UnicodeDB} {W : World}
    (response : Response) (artist name site : str) :
  title_element (text response) =
    Some (artist ++ lit " - " ++ name ++ lit " | " ++ site) →
  45 ∉ artist → 45 ∉ name ++ site → 124 ∉ name →
  (∀ tr, song_title_of (text response) tr =
         (Return (sanitize (strip name)), tr)) ∧
  (∀ url tr,
     printable url = true → probe_prints → title_prints response →
     fetched url response →
     Re.findall mp3_pattern (text response) ≠ [] →
     ∃ audio_url tr',
       extract_audio_url url tr =
       (Return (Some audio_url, Some (sanitize (strip name))), tr')).
Proof.
  intros Htitle Hartist Hrest Hname.
  assert (Hsong : ∀ tr, song_title_of (text response) tr =
                        (Return (sanitize (strip name)), tr)).
  { intros tr. destruct (song_title_of_eq (text response) tr) as (t & -> & Hcase).
    rewrite Htitle in Hcase.
    assert (45 ∉ name ++ lit " | " ++ site) as Hno.
    { intros [Hin|[Hin|Hin]%elem_of_app]%elem_of_app.
      - apply Hrest, elem_of_app. by left.
      - vm_compute in Hin.
        by repeat (apply elem_of_cons in Hin as [Hin|Hin]; [done|]);
          apply elem_of_nil in Hin.
      - apply Hrest, elem_of_app. by right. }
    pose proof (contains_app artist (lit " - ") (name ++ lit " | " ++ site)) as Hc.
    pose proof (split_one_mark artist (name ++ lit " | " ++ site) 45
                  ltac:(done) Hartist Hno) as H1.
    pose proof (split_first_piece name site 124 ltac:(done) Hname) as H2.
    rewrite Hc in Hcase.
    destruct Hcase as (part & rest & rest' & name' & Hsplit & Hpart & ->).
    pose proof (eq_trans (eq_sym H1) Hsplit) as Heq.
    injection Heq as _ Hp _. rewrite <- Hp in Hpart.
    pose proof (eq_trans (eq_sym H2) Hpart) as Hn.
    injection Hn as <-. done. }
  split; [done|]. intros url tr Hurl Hp Htp Hf Hlinks.
  destruct (extract_fetched url tr response Hurl Hp Htp Hf Hlinks)
    as (first & rest & found & tr' & t & _ & _ & Ht & Hex).
  rewrite Hsong in Ht. injection Ht as <-. eauto.
Qed.

Lemma title_of_artist_song_site_witness :
  song_title_of (U := ascii_db) (text great_hit_response) [] =
    (Return (sanitize (U := ascii_db) (strip (U := ascii_db) (lit "Great Hit"))), []) ∧
  ∃ audio_url tr',
    extract_audio_url (U := ascii_db) (W := great_hit_world all_work) song_url [] =
    (Return (Some audio_url,
             Some (sanitize (U := ascii_db) (strip (U := ascii_db) (lit "Great Hit")))),
     tr').
Proof.
  destruct (title_of_artist_song_site (U := ascii_db) (W := great_hit_world all_work)
              great_hit_response (lit "My Song") (lit "Great Hit") (lit "Udio"))
    as [Htitle Hextract].
  - reflexivity.
  - apply (bool_decide_unpack _). vm_compute. exact I.
  - apply (bool_decide_unpack _). vm_compute. exact I.
  - apply (bool_decide_unpack _). vm_compute. exact I.
  - split; [apply Htitle|].
    apply (Hextract song_url []).
    + reflexivity.
    + split; [reflexivity|]. split; [reflexivity|]. intros c [] _; reflexivity.
    + intros title_text [= <-]. reflexivity.
    + split; reflexivity.
    + vm_compute. discriminate.
Defined.
